(** * Sniphles: phase blocks, their complement, and the per-chromosome driver

    A shallow embedding of [sniphles.py].  Python integers are [Z], Python
    strings are [string], a [defaultdict(list)] is an association list in
    insertion order, and a function that can raise returns a [result].
    Functions that touch files or start programs thread a [world].  The
    external programs, [pysam]'s region query and [np.loadtxt] are not part of
    the repository: the region query follows [pysam] (it raises on a region
    that is backward or out of range and gives nothing on an empty one), and
    the programs are parameters ([tools]).  The alignment file is taken to
    exist, to be readable and to be indexed, and the system's temporary
    directory to be usable.  Messages on standard error and the parsing of the
    command line are left out; [main] takes the content of the alignment file
    and the output path as arguments. *)

From Stdlib Require Import ZArith List String Ascii Bool Lia QArith.
From Stdlib Require Import Permutation Sorted DecimalString.
Import ListNotations.
Open Scope string_scope.
Open Scope Z_scope.
Open Scope list_scope.

(** ** Python values, exceptions *)

(** The dynamically typed values the program passes around: tag values, phase
    labels, dictionary keys, paths and [None]. *)
Inductive value : Type :=
| VNone : value
| VInt : Z -> value
| VStr : string -> value.

(** Python's [==] on these values: an [int] never equals a [str]. *)
Definition value_eqb (a b : value) : bool :=
  match a, b with
  | VNone, VNone => true
  | VInt x, VInt y => Z.eqb x y
  | VStr s, VStr t => String.eqb s t
  | _, _ => false
  end.

(** [x in l] for a Python list. *)
Definition py_in (x : value) (l : list value) : bool :=
  existsb (value_eqb x) l.

Inductive exn : Type :=
| TypeError | NameError | KeyError | ValueError | IndexError
| FileNotFoundError | CalledProcessError
| OSError.   (* a failure of the operating system other than the ones above *)

Inductive result (A : Type) : Type :=
| Ok : A -> result A
| Raise : exn -> result A.
Arguments Ok {A} _.
Arguments Raise {A} _.

Definition rbind {A B} (m : result A) (k : A -> result B) : result B :=
  match m with
  | Ok a => k a
  | Raise e => Raise e
  end.

Declare Scope result_scope.
Delimit Scope result_scope with result.
Notation "x <- m ;; k" := (rbind m (fun x => k))
  (at level 61, m at next level, right associativity) : result_scope.

(** ** [defaultdict(list)] *)

Section DefaultDict.
Context {V : Type}.

Definition defaultdict := list (value * list V).

(** [d[k]] read without the insertion side effect. *)
Fixpoint dd_get (k : value) (d : defaultdict) : list V :=
  match d with
  | [] => []
  | (k', l) :: rest => if value_eqb k k' then l else dd_get k rest
  end.

(** [d[k].extend(xs)]: a missing key is entered last, with the empty list. *)
Fixpoint dd_extend (k : value) (xs : list V) (d : defaultdict) : defaultdict :=
  match d with
  | [] => [(k, xs)]
  | (k', l) :: rest =>
      if value_eqb k k' then (k', l ++ xs) :: rest
      else (k', l) :: dd_extend k xs rest
  end.

Definition dd_append (k : value) (x : V) (d : defaultdict) : defaultdict :=
  dd_extend k [x] d.

Definition dd_keys (d : defaultdict) : list value := map fst d.
End DefaultDict.
Arguments defaultdict V : clear implicits.

(** ** Reads and the alignment file *)

Record read : Type := mkRead {
  reference_name : string;
  reference_start : Z;
  reference_end : Z;
  tags : list (string * value)
}.

Fixpoint lookup_tag (name : string) (ts : list (string * value)) : option value :=
  match ts with
  | [] => None
  | (n, v) :: rest => if String.eqb name n then Some v else lookup_tag name rest
  end.

Definition has_tag (r : read) (name : string) : bool :=
  match lookup_tag name (tags r) with Some _ => true | None => false end.

Definition get_tag (r : read) (name : string) : result value :=
  match lookup_tag name (tags r) with Some v => Ok v | None => Raise KeyError end.

Record AlignmentFile : Type := mkBam {
  references : list (string * Z);   (* chromosome name, reference length *)
  alignments : list read
}.

(** [bam.fetch(contig=chrom)], for a contig of the file: its reads, in file
    order. *)
Definition fetch (bam : AlignmentFile) (chrom : string) : list read :=
  filter (fun r => String.eqb (reference_name r) chrom) (alignments bam).

(** A read's span meets the half-open region [[s, e)]. *)
Definition intersects (r : read) (s e : Z) : bool :=
  (reference_start r <? e) && (s <? reference_end r).

(** The largest coordinate [pysam] accepts. *)
Definition MAX_POS : Z := 2147483647.

(** The region [pysam] accepts: inside the range of coordinates and not
    backward. *)
Definition valid_region (s e : Z) : bool :=
  (s <=? e) && (0 <=? s) && (s <? MAX_POS) && (0 <=? e) && (e <=? MAX_POS).

(** [bam.fetch(contig=chrom, start=s, end=e)]: [ValueError] on a region that
    is not accepted, nothing on an empty region, else the reads whose span
    meets the region. *)
Definition fetch_region (bam : AlignmentFile) (chrom : string) (s e : Z)
    : result (list read) :=
  if valid_region s e then
    if s =? e then Ok [] else Ok (filter (fun r => intersects r s e) (fetch bam chrom))
  else Raise ValueError.

(** [pysam.AlignmentFile(path, "rb")] on a file with this content: a header
    that names no reference sequence is refused. *)
Definition open_AlignmentFile (content : AlignmentFile) : result AlignmentFile :=
  match references content with
  | [] => Raise ValueError
  | _ :: _ => Ok content
  end.

Fixpoint get_reference_length (refs : list (string * Z)) (chrom : string) : result Z :=
  match refs with
  | [] => Raise KeyError
  | (n, len) :: rest =>
      if String.eqb n chrom then Ok len else get_reference_length rest chrom
  end.

(** ** PhaseBlock *)

Record PhaseBlock : Type := mkPhaseBlock {
  id : value;
  start : Z;
  end_ : Z;
  phase : list value;
  status : string
}.

(** ** Helpers from Python and numpy *)

(** [max(l)], [np.amax(l)]: [ValueError] on the empty list. *)
Definition py_max (l : list Z) : result Z :=
  match l with
  | [] => Raise ValueError
  | x :: rest => Ok (fold_left Z.max rest x)
  end.

Definition np_amax := py_max.

Definition np_amin (l : list Z) : result Z :=
  match l with
  | [] => Raise ValueError
  | x :: rest => Ok (fold_left Z.min rest x)
  end.

(** [sorted(l, key=...)]: stable, ascending. *)
Section Sorted.
Context {A : Type} (key : A -> Z).

Fixpoint insert_by (x : A) (l : list A) : list A :=
  match l with
  | [] => [x]
  | y :: rest => if key x <=? key y then x :: y :: rest else y :: insert_by x rest
  end.

Definition sorted (l : list A) : list A := fold_right insert_by [] l.
End Sorted.

(** ** check_phase_blocks *)

(** The first loop: one pass over the reads, filling both dictionaries. *)
Fixpoint collect_tags (reads : list read)
    (phase_dict : defaultdict value) (coordinate_dict : defaultdict Z)
    : result (defaultdict value * defaultdict Z) :=
  match reads with
  | [] => Ok (phase_dict, coordinate_dict)
  | r :: rest =>
      if has_tag r "HP" then
        (ps <- get_tag r "PS" ;;
         hp <- get_tag r "HP" ;;
         collect_tags rest
           (dd_append ps hp phase_dict)
           (dd_extend ps [reference_start r; reference_end r] coordinate_dict))%result
      else collect_tags rest phase_dict coordinate_dict
  end.

(** The body of the second loop, for one [block_identifier]. *)
Definition make_block (phase_dict : defaultdict value) (coordinate_dict : defaultdict Z)
    (block_identifier : value) : result PhaseBlock :=
  if py_in (VStr "1") (dd_get block_identifier phase_dict)
     && py_in (VStr "2") (dd_get block_identifier phase_dict)
  then
    (lo <- np_amin (dd_get block_identifier coordinate_dict) ;;
     hi <- np_amax (dd_get block_identifier coordinate_dict) ;;
     Ok (mkPhaseBlock block_identifier lo hi [VInt 1; VInt 2] "biphasic"))%result
  else
    (lo <- np_amin (dd_get block_identifier coordinate_dict) ;;
     hi <- np_amax (dd_get block_identifier coordinate_dict) ;;
     first <- match dd_get block_identifier phase_dict with
              | [] => Raise IndexError
              | h :: _ => Ok h
              end ;;
     Ok (mkPhaseBlock block_identifier lo hi [first] "monophasic"))%result.

Fixpoint mapM {A B} (f : A -> result B) (l : list A) : result (list B) :=
  match l with
  | [] => Ok []
  | x :: rest => (y <- f x ;; ys <- mapM f rest ;; Ok (y :: ys))%result
  end.

Definition check_phase_blocks (bam : AlignmentFile) (chromosome : string)
    : result (list PhaseBlock) :=
  (dicts <- collect_tags (fetch bam chromosome) [] [] ;;
   phase_blocks <- mapM (make_block (fst dicts) (snd dicts)) (dd_keys (fst dicts)) ;;
   Ok (sorted start phase_blocks))%result.

(** ** get_unphased_blocks *)

(** The loop over [start_positions]; both accumulators grow at the back. *)
Fixpoint walk_starts (phase_blocks : list PhaseBlock) (start_positions : list Z)
    (unphased_intervals_starts unphased_intervals_ends : list Z)
    : result (list Z * list Z) :=
  match start_positions with
  | [] => Ok (unphased_intervals_starts, unphased_intervals_ends)
  | s :: rest =>
      (max_end_position <-
         py_max (map end_ (filter (fun block => start block =? s) phase_blocks)) ;;
       walk_starts phase_blocks rest
         (unphased_intervals_starts ++ [max_end_position])
         (unphased_intervals_ends ++ [s]))%result
  end.

Definition get_unphased_blocks (phase_blocks : list PhaseBlock)
    (chromosome_end_position : Z) : result (list PhaseBlock) :=
  let start_positions := sorted (fun z => z) (map start phase_blocks) in
  (acc <- walk_starts phase_blocks start_positions [0] [] ;;
   let unphased_intervals_starts := fst acc in
   let unphased_intervals_ends := snd acc ++ [chromosome_end_position] in
   let unphased_intervals := combine unphased_intervals_starts unphased_intervals_ends in
   let unphased_blocks :=
     map (fun interval =>
            mkPhaseBlock (VStr "NOID") (fst interval) (snd interval) [VStr "u"] "unphased")
         (filter (fun interval => negb (fst interval =? snd interval)) unphased_intervals) in
   Ok (sorted start unphased_blocks))%result.

(** ** The world outside: temporary names, files, external tools *)

Inductive file : Type :=
| EmptyFile : file
| Directory : file
| BamFile : list read -> file
| TextFile : string -> file.

Record world : Type := mkWorld {
  next_tmp : nat;                      (* supply of unused temporary names *)
  files : list (string * file);        (* newest entry first *)
  invocations : list (list string)     (* argv of every subprocess started, oldest first *)
}.

(** Code that reads and changes the world and may raise; what was done before
    an exception stays done. *)
Definition M (A : Type) : Type := world -> result A * world.

Definition ret {A} (a : A) : M A := fun w => (Ok a, w).
Definition raise {A} (e : exn) : M A := fun w => (Raise e, w).
Definition bind {A B} (m : M A) (k : A -> M B) : M B :=
  fun w => match m w with
           | (Ok a, w') => k a w'
           | (Raise e, w') => (Raise e, w')
           end.
Definition lift {A} (r : result A) : M A := fun w => (r, w).

Declare Scope M_scope.
Delimit Scope M_scope with M.
Notation "x <- m ;; k" := (bind m (fun x => k))
  (at level 61, m at next level, right associativity) : M_scope.
Notation "m ;;; k" := (bind m (fun _ => k))
  (at level 61, right associativity) : M_scope.

(** [for x in l: acc = body(x, acc)] *)
Fixpoint foldM {A S} (body : A -> S -> M S) (l : list A) (acc : S) : M S :=
  match l with
  | [] => ret acc
  | x :: rest => (acc' <- body x acc ;; foldM body rest acc')%M
  end.

Fixpoint lookup_file (p : string) (fs : list (string * file)) : option file :=
  match fs with
  | [] => None
  | (q, f) :: rest => if String.eqb p q then Some f else lookup_file p rest
  end.

Definition write_file (p : string) (f : file) : M unit :=
  fun w => (Ok tt, mkWorld (next_tmp w) ((p, f) :: files w) (invocations w)).

(** A name no earlier call has handed out: the counter in unary. *)
Fixpoint fresh (n : nat) : string :=
  match n with
  | O => ""
  | S k => String "x" (fresh k)
  end.

(** [tempfile.mkstemp(prefix=..., suffix=...)[1]]: the file is created empty. *)
Definition mkstemp (prefix suffix : string) : M string :=
  fun w =>
    let p := (prefix ++ fresh (next_tmp w) ++ suffix)%string in
    (Ok p, mkWorld (S (next_tmp w)) ((p, EmptyFile) :: files w) (invocations w)).

(** [tempfile.mkdtemp(prefix=...)] *)
Definition mkdtemp (prefix : string) : M string :=
  fun w =>
    let p := (prefix ++ fresh (next_tmp w))%string in
    (Ok p, mkWorld (S (next_tmp w)) ((p, Directory) :: files w) (invocations w)).

(** The prefix [mkstemp] uses when none is given. *)
Definition default_prefix : string := "/tmp/tmp".

(** [os.remove(p)] *)
Definition os_remove (p : string) : M unit :=
  fun w =>
    match lookup_file p (files w) with
    | None => (Raise FileNotFoundError, w)
    | Some _ =>
        (Ok tt, mkWorld (next_tmp w)
                  (filter (fun e => negb (String.eqb p (fst e))) (files w))
                  (invocations w))
    end.

(** [shutil.rmtree(d)] *)
Definition rmtree (d : string) : M unit := os_remove d.

(** What the external programs and [np.loadtxt] do, and where besides the
    temporary directory a file can be created, is not in this repository:
    they are taken as given. *)
Record tools : Type := mkTools {
  tool_effect : list string -> list (string * file) -> list (string * file);
  tool_exit_ok : list string -> list (string * file) -> bool;
  np_loadtxt : string -> list (string * file) -> result Q;
  creatable : string -> list (string * file) -> bool
}.

Definition started (argv : list string) (w : world) : world :=
  mkWorld (next_tmp w) (files w) (invocations w ++ [argv]).

(** [subprocess.call(argv)]: the exit status is dropped. *)
Definition subprocess_call (t : tools) (argv : list string) : M unit :=
  fun w =>
    let w1 := started argv w in
    (Ok tt, mkWorld (next_tmp w1) (tool_effect t argv (files w1)) (invocations w1)).

(** [subprocess.check_output(argv)]: a non-zero exit status raises. *)
Definition subprocess_check_output (t : tools) (argv : list string) : M unit :=
  fun w =>
    let w1 := started argv w in
    let w2 := mkWorld (next_tmp w1) (tool_effect t argv (files w1)) (invocations w1) in
    if tool_exit_ok t argv (files w1) then (Ok tt, w2)
    else (Raise CalledProcessError, w2).

(** [str(z)] for an integer inside an f-string. *)
Definition str_of_Z (z : Z) : string := NilZero.string_of_int (Z.to_int z).

Definition tab : string := String (ascii_of_nat 9) "".
Definition newline : string := String (ascii_of_nat 10) "".

(** ** make_bams *)

(** Of the reads the region query gave, those the loop writes for one phase
    label. *)
Definition written_for (phase : value) (fetched : list read) : list read :=
  if value_eqb phase (VStr "u") then fetched
  else
    filter (fun r =>
              has_tag r "HP" &&
              match get_tag r "HP" with
              | Ok hp => value_eqb hp phase
              | Raise _ => false
              end)
           fetched.

(** The reads written to the temporary file of one phase label: none when
    the region query raises. *)
Definition read_set (bam : AlignmentFile) (chrom : string) (phase_block : PhaseBlock)
    (phase : value) : list read :=
  match fetch_region bam chrom (start phase_block) (end_ phase_block) with
  | Ok fetched => written_for phase fetched
  | Raise _ => []
  end.

(** The body of the loop over [phase_block.phase]: the temporary file exists,
    opened as an alignment file without reads, before the region is queried. *)
Definition make_bam (bam : AlignmentFile) (chrom : string) (phase_block : PhaseBlock)
    (phase : value) (tmp_bam_paths : list string) : M (list string) :=
  (tmppath <- mkstemp default_prefix ".bam" ;;
   write_file tmppath (BamFile []) ;;;
   fetched <- lift (fetch_region bam chrom (start phase_block) (end_ phase_block)) ;;
   write_file tmppath (BamFile (written_for phase fetched)) ;;;
   ret (tmp_bam_paths ++ [tmppath]))%M.

Definition make_bams (bam : AlignmentFile) (chrom : string) (phase_block : PhaseBlock)
    : M (list string) :=
  foldM (make_bam bam chrom phase_block) (phase phase_block) [].

(** ** get_coverage *)

Definition get_coverage (t : tools) (tmpdir tmpbam chrom : string) (block : PhaseBlock)
    : M Q :=
  (tmpbed <- mkstemp default_prefix ".bed" ;;
   write_file tmpbed
     (TextFile (chrom ++ tab ++ str_of_Z (start block) ++ tab
                ++ str_of_Z (end_ block) ++ newline)%string) ;;;
   subprocess_call t
     ["mosdepth"; "-n"; "-x"; "-b"; tmpbed;
      (tmpdir ++ "/" ++ chrom ++ "." ++ str_of_Z (start block))%string; tmpbam] ;;;
   cov <- (fun w =>
             (np_loadtxt t
                (tmpdir ++ "/" ++ chrom ++ "." ++ str_of_Z (start block)
                 ++ ".regions.bed.gz")%string (files w), w)) ;;
   os_remove tmpbed ;;;
   ret cov)%M.

(** ** sniffles *)

(** [os.path.join(tempfile.gettempdir(), prefix)]: an absolute prefix stands
    for itself. *)
Definition in_tmp (prefix : string) : string :=
  match prefix with
  | String "/" _ => prefix
  | _ => ("/tmp/" ++ prefix)%string
  end.

(** [tempfile.mkstemp(prefix=prefix, suffix=suffix)[1]] for a prefix given by
    the caller: the file may lie outside the temporary directory, where it
    cannot always be created. *)
Definition mkstemp_prefixed (t : tools) (prefix suffix : string) : M string :=
  fun w =>
    if creatable t (in_tmp prefix ++ fresh (next_tmp w) ++ suffix)%string (files w)
    then mkstemp (in_tmp prefix) suffix w
    else (Raise OSError, w).

(** A call [sniffles(...)].  The function has three parameters; its body
    stops at the f-string, which names the undefined [s]. *)
Definition sniffles (t : tools) (args : list value) : M value :=
  match args with
  | [tmpdvcf; tmpbam; status] =>
      (tmppath <- match tmpdvcf with
                  | VStr prefix => mkstemp_prefixed t prefix ".vcf"
                  | VNone => mkstemp default_prefix ".vcf"
                  | VInt _ => raise TypeError
                  end ;;
       tmpd <- mkdtemp "/tmp/sniffles_tmp" ;;
       raise NameError)%M
  | _ => raise TypeError
  end.

(** ** concat_vcf *)

(** [' '.join(vcfs)], already split into words again by [shlex.split]: every
    item must be a string (names are taken to hold no blanks or quotes). *)
Fixpoint join_words (vcfs : list value) : result (list string) :=
  match vcfs with
  | [] => Ok []
  | VStr s :: rest => (ws <- join_words rest ;; Ok (s :: ws))%result
  | _ :: _ => Raise TypeError
  end.

(** [f"{v}"] *)
Definition format_value (v : value) : string :=
  match v with
  | VNone => "None"
  | VInt z => str_of_Z z
  | VStr s => s
  end.

(** [for vcf in vcfs: os.remove(vcf)] *)
Fixpoint remove_all (vcfs : list value) : M unit :=
  match vcfs with
  | [] => ret tt
  | VStr s :: rest => (os_remove s ;;; remove_all rest)%M
  | _ :: _ => raise TypeError
  end.

(** The default of [output] is evaluated when the [def] statement runs. *)
Definition define_concat_vcf : M string := mkstemp default_prefix ".vcf".

(** A call of [concat_vcf]; [output = None] here means the argument was left
    out, and [default_output] is what [define_concat_vcf] returned. *)
Definition concat_vcf (t : tools) (default_output : string)
    (vcfs : list value) (output : option value) : M value :=
  let output := match output with Some v => v | None => VStr default_output end in
  match vcfs with
  | _ :: _ =>
      (words <- lift (join_words vcfs) ;;
       subprocess_check_output t
         (["bcftools"; "concat"; "-a"] ++ words
          ++ ["|"; "bcftools"; "sort"; "-o"; format_value output]) ;;;
       remove_all vcfs ;;;
       ret output)%M
  | [] => ret VNone
  end.

(** ** merge_haplotypes *)

(** A call [merge_haplotypes(...)]: two parameters, and the body is [pass]. *)
Definition merge_haplotypes (args : list value) : M value :=
  match args with
  | [H1; H2] => ret VNone
  | _ => raise TypeError
  end.

(** ** main *)

Section Main.
(** What the names [sniffles] and [merge_haplotypes] are bound to when
    [main] runs. *)
Variable sniffles_fn : list value -> M value.
Variable merge_haplotypes_fn : list value -> M value.
Variable t : tools.
Variable default_output : string.

(** [cov >= 10] *)
Definition enough_coverage (cov : Q) : bool := Qle_bool 10 cov.

(** The body of the inner loop. *)
Definition call_read_set (tmpdmos chrom : string) (block : PhaseBlock)
    (item : string * value) (variant_files : defaultdict value)
    : M (defaultdict value) :=
  let tmpbam := fst item in
  let phase := snd item in
  (cov <- get_coverage t tmpdmos tmpbam chrom block ;;
   variant_files <-
     (if enough_coverage cov then
        tmpvcf <- sniffles_fn [VStr tmpbam; VStr (status block)] ;;
        ret (dd_append phase tmpvcf variant_files)
      else ret variant_files) ;;
   os_remove tmpbam ;;;
   ret variant_files)%M.

(** The body of the loop over [phase_blocks]. *)
Definition call_block (bam : AlignmentFile) (tmpdmos chrom : string)
    (block : PhaseBlock) (variant_files : defaultdict value)
    : M (defaultdict value) :=
  (tmpbams <- make_bams bam chrom block ;;
   foldM (call_read_set tmpdmos chrom block)
         (combine tmpbams (phase block)) variant_files)%M.

(** The body of the loop over [bam.references]. *)
Definition call_chromosome (bam : AlignmentFile) (tmpdmos chrom : string)
    (vcfs_per_chromosome : list value) : M (list value) :=
  (phase_blocks <- lift (check_phase_blocks bam chrom) ;;
   len <- lift (get_reference_length (references bam) chrom) ;;
   unphased <- lift (get_unphased_blocks phase_blocks len) ;;
   let phase_blocks := phase_blocks ++ unphased in
   variant_files <- foldM (call_block bam tmpdmos chrom) phase_blocks [] ;;
   h1_vcf <- concat_vcf t default_output (dd_get (VStr "1") variant_files) None ;;
   h2_vcf <- concat_vcf t default_output (dd_get (VStr "2") variant_files) None ;;
   unph_vcf <- concat_vcf t default_output (dd_get (VStr "u") variant_files) None ;;
   chrom_vcf <- merge_haplotypes_fn [h1_vcf; h2_vcf; unph_vcf] ;;
   ret (vcfs_per_chromosome ++ [chrom_vcf]))%M.

Definition main_with (content : AlignmentFile) (args_vcf : string) : M unit :=
  (bam <- lift (open_AlignmentFile content) ;;
   tmpdmos <- mkdtemp "/tmp/mosdepth" ;;
   tmpdvcf <- mkdtemp "/tmp/sniffles" ;;
   vcfs_per_chromosome <-
     foldM (call_chromosome bam tmpdmos) (map fst (references bam)) [] ;;
   concat_vcf t default_output vcfs_per_chromosome (Some (VStr args_vcf)) ;;;
   rmtree tmpdmos ;;;
   rmtree tmpdvcf)%M.
End Main.

(** The program: the module's [def] statements run first, then [main()]. *)
Definition main (t : tools) (bam : AlignmentFile) (args_vcf : string) : M unit :=
  (default_output <- define_concat_vcf ;;
   main_with (sniffles t) merge_haplotypes t default_output bam args_vcf)%M.

(** * Vocabulary of the properties *)

(** ** Intervals and the bases they contain *)

(** Base [x] lies in the half-open span of [b]. *)
Definition covers (b : PhaseBlock) (x : Z) : bool :=
  (start b <=? x) && (x <? end_ b).

(** How many intervals of [l] contain base [x]. *)
Definition coverage (l : list PhaseBlock) (x : Z) : nat :=
  List.length (filter (fun b => covers b x) l).

(** [l] covers [[0, len)] with no overlap and no gap, and nothing else. *)
Definition partitions (l : list PhaseBlock) (len : Z) : Prop :=
  forall x, coverage l x = if (0 <=? x) && (x <? len) then 1%nat else 0%nat.

(** In list order, every interval is non-empty and begins no earlier than the
    one before it ends; the first begins at [lo] or later and the last ends
    at [hi] or earlier. *)
Fixpoint chained (lo : Z) (l : list PhaseBlock) (hi : Z) : Prop :=
  match l with
  | [] => lo <= hi
  | b :: rest => lo <= start b /\ start b < end_ b /\ chained (end_ b) rest hi
  end.

(** The pairs the zip produces when the phased intervals are [l] in order:
    before the first, between neighbours, after the last. *)
Fixpoint gaps (lo : Z) (l : list PhaseBlock) (hi : Z) : list (Z * Z) :=
  match l with
  | [] => [(lo, hi)]
  | b :: rest => (lo, start b) :: gaps (end_ b) rest hi
  end.

(** The block the comprehension builds from one pair. *)
Definition unphased_of (interval : Z * Z) : PhaseBlock :=
  mkPhaseBlock (VStr "NOID") (fst interval) (snd interval) [VStr "u"] "unphased".

(** The comprehension's condition. *)
Definition proper (interval : Z * Z) : bool :=
  negb (fst interval =? snd interval).

(** ** Example alignments *)

(** A read with a phase-set tag and a haplotype tag. *)
Definition hp_read (chrom : string) (s e : Z) (ps hp : value) : read :=
  mkRead chrom s e [("PS", ps); ("HP", hp)].

(** Two phase sets that lie apart, on a chromosome of length 500. *)
Definition bam_apart : AlignmentFile :=
  mkBam [("chr1", 500)]
        [hp_read "chr1" 100 180 (VInt 100) (VInt 1);
         hp_read "chr1" 120 200 (VInt 100) (VInt 1);
         hp_read "chr1" 300 400 (VInt 300) (VInt 2)].

(** Two phase sets whose outermost reads overlap. *)
Definition bam_overlap : AlignmentFile :=
  mkBam [("chr1", 500)]
        [hp_read "chr1" 100 300 (VInt 100) (VInt 1);
         hp_read "chr1" 200 400 (VInt 200) (VInt 1)].

(** Two phase sets whose first reads begin at the same base. *)
Definition bam_shared_start : AlignmentFile :=
  mkBam [("chr1", 500)]
        [hp_read "chr1" 100 200 (VInt 5) (VInt 1);
         hp_read "chr1" 100 300 (VInt 7) (VInt 2)].

(** Two phase sets that touch at base 200. *)
Definition bam_touching : AlignmentFile :=
  mkBam [("chr1", 500)]
        [hp_read "chr1" 100 200 (VInt 100) (VInt 1);
         hp_read "chr1" 200 300 (VInt 200) (VInt 2)].

(** One phase set whose reads carry both haplotypes, as integers. *)
Definition bam_both_int : AlignmentFile :=
  mkBam [("chr1", 500)]
        [hp_read "chr1" 100 180 (VInt 100) (VInt 1);
         hp_read "chr1" 120 200 (VInt 100) (VInt 2)].

(** The same phase set with the haplotypes as strings. *)
Definition bam_both_str : AlignmentFile :=
  mkBam [("chr1", 500)]
        [hp_read "chr1" 100 180 (VInt 100) (VStr "1");
         hp_read "chr1" 120 200 (VInt 100) (VStr "2")].

(** Reads around the interval [100, 200): one of each haplotype meeting it,
    one of haplotype 1 beyond it, and one without a haplotype tag inside it. *)
Definition read_h1 : read := hp_read "chr1" 90 150 (VInt 100) (VInt 1).
Definition read_h2 : read := hp_read "chr1" 120 210 (VInt 100) (VInt 2).
Definition read_h1_far : read := hp_read "chr1" 250 300 (VInt 100) (VInt 1).
Definition read_untagged : read := mkRead "chr1" 130 140 [].

Definition bam_mixed : AlignmentFile :=
  mkBam [("chr1", 500)] [read_h1; read_h2; read_h1_far; read_untagged].

(** The spans of a list of blocks, for reading results. *)
Definition spans (l : list PhaseBlock) : list (Z * Z) :=
  map (fun b => (start b, end_ b)) l.

(** Both stages in a row, as [main] runs them for one chromosome. *)
Definition intervals_of (bam : AlignmentFile) (chrom : string)
    : result (list PhaseBlock * list PhaseBlock) :=
  (phased <- check_phase_blocks bam chrom ;;
   len <- get_reference_length (references bam) chrom ;;
   unphased <- get_unphased_blocks phased len ;;
   Ok (phased, unphased))%result.

(** ** Labels, calls, files *)

(** The haplotype tags of the reads of one phase set, in file order. *)
Definition group_labels (reads : list read) (ps : value) : list value :=
  flat_map (fun r =>
              match lookup_tag "HP" (tags r), lookup_tag "PS" (tags r) with
              | Some hp, Some p => if value_eqb ps p then [hp] else []
              | _, _ => []
              end) reads.

(** The value is a Python [int]. *)
Definition is_int (v : value) : bool :=
  match v with VInt _ => true | _ => false end.

(** Every label filed in the dictionary is an [int]. *)
Definition int_labels (d : defaultdict value) : Prop :=
  Forall (fun entry => forallb is_int (snd entry) = true) d.

(** [m], run in [w], returns normally. *)
Definition returns {A} (m : M A) (w : world) : Prop :=
  exists a w', m w = (Ok a, w').

(** Tools that always succeed and change nothing. *)
Definition quiet_tools (depth : Q) : tools :=
  mkTools (fun _ fs => fs) (fun _ _ => true) (fun _ _ => Ok depth) (fun _ _ => true).

(** The read carries a haplotype tag equal to [L]. *)
Definition tagged (r : read) (L : value) : bool :=
  match lookup_tag "HP" (tags r) with
  | Some hp => value_eqb hp L
  | None => false
  end.

(** The reads of [chrom] whose span meets the interval and, unless the label
    is the unphased one, whose haplotype tag is the label. *)
Definition expected_read_set (bam : AlignmentFile) (chrom : string)
    (block : PhaseBlock) (L : value) : list read :=
  filter (fun r => intersects r (start block) (end_ block)
                   && (value_eqb L (VStr "u") || tagged r L))
         (fetch bam chrom).

(** The name [make_bams] draws when the counter stands at [n]. *)
Definition tmp_bam (n : nat) : string := (default_prefix ++ fresh n ++ ".bam")%string.
Arguments tmp_bam : simpl never.

(** The files [make_bams] leaves behind for the labels [phases], the counter
    standing at [n] when it starts; newest first. *)
Fixpoint bam_entries (bam : AlignmentFile) (chrom : string) (block : PhaseBlock)
    (n : nat) (phases : list value) : list (string * file) :=
  match phases with
  | [] => []
  | L :: rest =>
      bam_entries bam chrom block (S n) rest
      ++ [(tmp_bam n, BamFile (read_set bam chrom block L));
          (tmp_bam n, BamFile []); (tmp_bam n, EmptyFile)]
  end.

(** A variant caller that works: it creates a call-result file and returns
    its path. *)
Definition working_caller (args : list value) : M value :=
  (tmppath <- mkstemp "/tmp/sniffles" ".vcf" ;; ret (VStr tmppath))%M.

(** A world in which one read-set file exists. *)
Definition world_with_bam (tmpbam : string) : world :=
  mkWorld 1 [(tmpbam, BamFile [])] [].

(** The interval [100, 200) of haplotype 1. *)
Definition block_100_200 : PhaseBlock :=
  mkPhaseBlock (VInt 100) 100 200 [VInt 1] "monophasic".

(** ** Further vocabulary: groups, traces *)

(** A chromosome whose only read carries no haplotype tag. *)
Definition bam_untagged : AlignmentFile :=
  mkBam [("chr1", 500)] [read_untagged].

(** The interval the Interval Complementer emits for one pair. *)
Definition whole_chromosome (len : Z) : PhaseBlock :=
  mkPhaseBlock (VStr "NOID") 0 len [VStr "u"] "unphased".

(** The coordinates the first loop files under one phase set: start and end
    of each of its tagged reads, in file order. *)
Definition group_coordinates (reads : list read) (ps : value) : list Z :=
  flat_map (fun r =>
              match lookup_tag "HP" (tags r), lookup_tag "PS" (tags r) with
              | Some hp, Some p =>
                  if value_eqb ps p then [reference_start r; reference_end r] else []
              | _, _ => []
              end) reads.

(** The read belongs to phase set [ps]: it has a haplotype tag and its
    phase-set tag is [ps]. *)
Definition in_phase_set (r : read) (ps : value) : Prop :=
  has_tag r "HP" = true /\ lookup_tag "PS" (tags r) = Some ps.

(** The alignment file without the reads that carry no haplotype tag. *)
Definition only_tagged (bam : AlignmentFile) : AlignmentFile :=
  mkBam (references bam) (filter (fun r => has_tag r "HP") (alignments bam)).

(** Every run of [m] leaves the world related to the one it started in,
    whether it returns or raises. *)
Definition keeps {A} (R : world -> world -> Prop) (m : M A) : Prop :=
  forall w, R w (snd (m w)).

(** No program was started between [w] and [w']. *)
Definition quiet (w w' : world) : Prop := invocations w' = invocations w.

(** Every program started between [w] and [w'] is mosdepth. *)
Definition only_mosdepth (w w' : world) : Prop :=
  exists started_since,
    invocations w' = invocations w ++ started_since /\
    Forall (fun argv => exists rest, argv = "mosdepth" :: rest) started_since.

(** The command line [get_coverage] builds. *)
Definition mosdepth_argv (tmpbed tmpdir tmpbam chrom : string) (block : PhaseBlock)
    : list string :=
  ["mosdepth"; "-n"; "-x"; "-b"; tmpbed;
   (tmpdir ++ "/" ++ chrom ++ "." ++ str_of_Z (start block))%string; tmpbam].

(** The command line [concat_vcf] builds from the names [words]. *)
Definition bcftools_argv (words : list string) (output : value) : list string :=
  ["bcftools"; "concat"; "-a"] ++ words
  ++ ["|"; "bcftools"; "sort"; "-o"; format_value output].

(** Tools whose depth report cannot be read. *)
Definition unreadable_report : tools :=
  mkTools (fun _ fs => fs) (fun _ _ => true) (fun _ _ => Raise FileNotFoundError)
          (fun _ _ => true).

(** Tools that exit with a non-zero status. *)
Definition failing_tools : tools :=
  mkTools (fun _ fs => fs) (fun _ _ => false) (fun _ _ => Ok 0%Q) (fun _ _ => true).

(** The name [get_coverage] draws for its bed file in world [w]. *)
Definition tmp_bed (w : world) : string :=
  (default_prefix ++ fresh (next_tmp w) ++ ".bed")%string.

(** The files as mosdepth leaves them when [get_coverage] runs it in [w]. *)
Definition files_after_mosdepth (t : tools) (tmpdir tmpbam chrom : string)
    (block : PhaseBlock) (w : world) : list (string * file) :=
  tool_effect t (mosdepth_argv (tmp_bed w) tmpdir tmpbam chrom block)
    ((tmp_bed w,
      TextFile (chrom ++ tab ++ str_of_Z (start block) ++ tab
                ++ str_of_Z (end_ block) ++ newline)%string)
     :: (tmp_bed w, EmptyFile) :: files w).

(** The path of the depth report [get_coverage] reads. *)
Definition depth_report (tmpdir chrom : string) (block : PhaseBlock) : string :=
  (tmpdir ++ "/" ++ chrom ++ "." ++ str_of_Z (start block) ++ ".regions.bed.gz")%string.

(** * Properties *)

(** ** Sorting *)

Section SortedFacts.
Context {A : Type} (key : A -> Z).

Lemma insert_by_perm (x : A) (l : list A) :
  Permutation (insert_by key x l) (x :: l).
Proof.
  induction l as [|y rest IH]; simpl.
  - apply Permutation_refl.
  - destruct (key x <=? key y).
    + apply Permutation_refl.
    + eapply perm_trans; [apply perm_skip, IH | apply perm_swap].
Qed.

Lemma sorted_perm (l : list A) : Permutation (sorted key l) l.
Proof.
  induction l as [|x rest IH]; simpl.
  - constructor.
  - eapply perm_trans; [apply insert_by_perm | apply perm_skip, IH].
Qed.

Lemma sorted_In (l : list A) (x : A) : In x (sorted key l) <-> In x l.
Proof.
  split; apply Permutation_in;
    [apply sorted_perm | apply Permutation_sym, sorted_perm].
Qed.

Lemma insert_by_ascending (x : A) (l : list A) :
  Sorted (fun a b => key a <= key b) l ->
  Sorted (fun a b => key a <= key b) (insert_by key x l).
Proof.
  induction 1 as [|y rest Hrest IH Hhd]; simpl.
  - repeat constructor.
  - destruct (Z.leb_spec (key x) (key y)) as [Hle|Hgt].
    + constructor; [now constructor | now constructor].
    + constructor; [exact IH|].
      destruct rest as [|z rest']; simpl.
      * constructor. lia.
      * inversion Hhd; subst.
        destruct (key x <=? key z); constructor; lia.
Qed.

Lemma sorted_ascending (l : list A) :
  Sorted (fun a b => key a <= key b) (sorted key l).
Proof.
  induction l as [|x rest IH]; simpl.
  - constructor.
  - now apply insert_by_ascending.
Qed.
End SortedFacts.

(** Both stages hand their intervals on in ascending order of [start]. *)
Lemma check_phase_blocks_ascending (bam : AlignmentFile) (chrom : string) blocks :
  check_phase_blocks bam chrom = Ok blocks ->
  Sorted (fun a b => start a <= start b) blocks.
Proof.
  unfold check_phase_blocks.
  destruct (collect_tags _ _ _) as [dicts|]; simpl; [|discriminate].
  destruct (mapM _ _) as [bs|]; simpl; [|discriminate].
  intros [= <-]. apply sorted_ascending.
Qed.

Lemma get_unphased_blocks_ascending (phase_blocks : list PhaseBlock) (len : Z) out :
  get_unphased_blocks phase_blocks len = Ok out ->
  Sorted (fun a b => start a <= start b) out.
Proof.
  unfold get_unphased_blocks.
  destruct (walk_starts _ _ _ _) as [acc|]; simpl; [|discriminate].
  intros [= <-]. apply sorted_ascending.
Qed.

(** ** Coverage of a base by a list of intervals *)

Lemma coverage_app (l1 l2 : list PhaseBlock) (x : Z) :
  coverage (l1 ++ l2) x = (coverage l1 x + coverage l2 x)%nat.
Proof. unfold coverage. now rewrite filter_app, length_app. Qed.

Lemma coverage_perm (l1 l2 : list PhaseBlock) (x : Z) :
  Permutation l1 l2 -> coverage l1 x = coverage l2 x.
Proof.
  unfold coverage. induction 1; simpl.
  - reflexivity.
  - destruct (covers x0 x); simpl; congruence.
  - destruct (covers x0 x), (covers y x); reflexivity.
  - congruence.
Qed.

(** ** Phased intervals that do not overlap *)

Lemma chained_bounds lo l hi : chained lo l hi -> lo <= hi.
Proof.
  revert lo. induction l as [|b rest IH]; simpl; intros lo H.
  - exact H.
  - destruct H as (H1 & H2 & H3). apply IH in H3. lia.
Qed.

Lemma chained_In lo l hi b :
  chained lo l hi -> In b l -> lo <= start b /\ start b < end_ b /\ end_ b <= hi.
Proof.
  revert lo. induction l as [|c rest IH]; simpl; intros lo H Hin.
  - contradiction.
  - destruct H as (H1 & H2 & H3). destruct Hin as [->|Hin].
    + pose proof (chained_bounds _ _ _ H3). lia.
    + destruct (IH _ H3 Hin) as (? & ? & ?). lia.
Qed.

Lemma chained_starts_sorted lo l hi :
  chained lo l hi -> sorted (fun z => z) (map start l) = map start l.
Proof.
  revert lo. induction l as [|b rest IH]; simpl; intros lo H.
  - reflexivity.
  - destruct H as (H1 & H2 & H3). rewrite (IH _ H3).
    destruct rest as [|c rest']; simpl.
    + reflexivity.
    + destruct H3 as (H4 & _). 
      destruct (Z.leb_spec (start b) (start c)); [reflexivity | lia].
Qed.

Lemma chained_filter_below lo l hi s :
  chained lo l hi -> s < lo ->
  filter (fun block => start block =? s) l = [].
Proof.
  intros H Hs.
  assert (H' : Forall (fun b => lo <= start b) l).
  { apply Forall_forall. intros b Hb. now apply (chained_In _ _ _ _ H Hb). }
  clear H. induction l as [|c rest IH]; simpl.
  - reflexivity.
  - inversion H' as [|? ? Hc Hrest]; subst.
    destruct (Z.eqb_spec (start c) s); [lia | now apply IH].
Qed.

Lemma chained_filter_start lo l hi b :
  chained lo l hi -> In b l ->
  filter (fun block => start block =? start b) l = [b].
Proof.
  revert lo. induction l as [|c rest IH]; simpl; intros lo H Hin.
  - contradiction.
  - destruct H as (H1 & H2 & H3). destruct Hin as [->|Hin].
    + rewrite Z.eqb_refl. f_equal.
      now apply (chained_filter_below _ _ _ _ H3).
    + pose proof (chained_In _ _ _ b H3 Hin) as (Hb & _).
      destruct (Z.eqb_spec (start c) (start b)); [lia|].
      now apply (IH _ H3).
Qed.

(** ** get_unphased_blocks *)

Lemma combine_gaps lo l hi :
  combine (lo :: map end_ l) (map start l ++ [hi]) = gaps lo l hi.
Proof.
  revert lo. induction l as [|b rest IH]; intros lo; simpl.
  - reflexivity.
  - f_equal. apply IH.
Qed.

(** The loop never fails on start positions taken from the blocks themselves,
    and it appends one entry to each accumulator per position walked. *)
Lemma walk_starts_spec (bs : list PhaseBlock) (l S E : list Z) :
  (forall s, In s l -> exists b, In b bs /\ start b = s) ->
  exists ms,
    walk_starts bs l S E = Ok (S ++ ms, E ++ l) /\
    Forall2 (fun s m =>
               py_max (map end_ (filter (fun block => start block =? s) bs)) = Ok m)
            l ms.
Proof.
  revert S E. induction l as [|s rest IH]; intros S E Hl; simpl.
  - exists []. rewrite !app_nil_r. split; [reflexivity | constructor].
  - destruct (Hl s (or_introl eq_refl)) as (b & Hb & Hs).
    destruct (filter (fun block => start block =? s) bs) as [|c cs] eqn:Hf.
    + exfalso. assert (Hin : In b (filter (fun block => start block =? s) bs)).
      { apply filter_In. split; [assumption | now apply Z.eqb_eq]. }
      rewrite Hf in Hin. contradiction.
    + simpl.
      destruct (IH (S ++ [fold_left Z.max (map end_ cs) (end_ c)]) (E ++ [s]))
        as (ms & Hw & HF).
      { intros s' Hs'. apply Hl. now right. }
      exists (fold_left Z.max (map end_ cs) (end_ c) :: ms). split.
      * rewrite Hw. now rewrite <- !app_assoc.
      * constructor; [now rewrite Hf | assumption].
Qed.

(** The Interval Complementer returns on every input. *)
Lemma get_unphased_blocks_total (phase_blocks : list PhaseBlock) (len : Z) :
  exists out, get_unphased_blocks phase_blocks len = Ok out.
Proof.
  unfold get_unphased_blocks.
  destruct (walk_starts_spec phase_blocks
              (sorted (fun z => z) (map start phase_blocks)) [0] [])
    as (ms & Hw & _).
  - intros s Hs. apply sorted_In in Hs. apply in_map_iff in Hs.
    destruct Hs as (b & Hb & Hin). now exists b.
  - rewrite Hw. simpl. eexists. reflexivity.
Qed.

(** Whatever the input, an emitted interval is never degenerate. *)
Lemma get_unphased_blocks_proper (phase_blocks : list PhaseBlock) (len : Z) out u :
  get_unphased_blocks phase_blocks len = Ok out -> In u out ->
  start u <> end_ u /\ phase u = [VStr "u"] /\ status u = "unphased".
Proof.
  unfold get_unphased_blocks. intros H Hu.
  destruct (walk_starts _ _ _ _) as [acc|e]; simpl in H; [|discriminate].
  injection H as <-. apply sorted_In in Hu. apply in_map_iff in Hu.
  destruct Hu as (p & <- & Hp). apply filter_In in Hp. destruct Hp as (_ & Hp).
  simpl. repeat split. apply negb_true_iff in Hp. now apply Z.eqb_neq.
Qed.

Lemma max_ends_unique (bs l : list PhaseBlock) (ms : list Z) :
  (forall b, In b l -> filter (fun block => start block =? start b) bs = [b]) ->
  Forall2 (fun s m =>
             py_max (map end_ (filter (fun block => start block =? s) bs)) = Ok m)
          (map start l) ms ->
  ms = map end_ l.
Proof.
  revert ms. induction l as [|b rest IH]; intros ms Hall HF.
  - inversion HF. reflexivity.
  - inversion HF as [|? m ? ms' Hm HF']; subst. simpl. f_equal.
    + rewrite (Hall b (or_introl eq_refl)) in Hm. simpl in Hm. now injection Hm.
    + apply IH; [|assumption]. intros c Hin. apply Hall. now right.
Qed.

(** On non-overlapping intervals the result is the list of non-empty gaps. *)
Lemma get_unphased_blocks_chained (phase_blocks : list PhaseBlock) (len : Z) :
  chained 0 phase_blocks len ->
  get_unphased_blocks phase_blocks len
  = Ok (sorted start (map unphased_of (filter proper (gaps 0 phase_blocks len)))).
Proof.
  intros Hc. unfold get_unphased_blocks.
  rewrite (chained_starts_sorted _ _ _ Hc).
  destruct (walk_starts_spec phase_blocks (map start phase_blocks) [0] [])
    as (ms & Hw & HF).
  { intros s Hs. apply in_map_iff in Hs. destruct Hs as (b & Hb & Hin). now exists b. }
  rewrite Hw. simpl rbind.
  assert (Hms : ms = map end_ phase_blocks).
  { apply (max_ends_unique phase_blocks phase_blocks ms); [|assumption].
    intros b Hb. now apply (chained_filter_start _ _ _ _ Hc). }
  subst ms. rewrite <- (combine_gaps 0 phase_blocks len). reflexivity.
Qed.

Lemma gaps_ordered lo l hi :
  chained lo l hi -> Forall (fun interval => fst interval <= snd interval) (gaps lo l hi).
Proof.
  revert lo. induction l as [|b rest IH]; simpl; intros lo H.
  - constructor; [assumption | constructor].
  - destruct H as (H1 & H2 & H3). constructor; [assumption | now apply IH].
Qed.

(** Every base between [lo] and [hi] lies in exactly one interval or in
    exactly one gap. *)
Lemma coverage_gaps lo l hi x :
  chained lo l hi ->
  (coverage l x + coverage (map unphased_of (filter proper (gaps lo l hi))) x)%nat
  = if (lo <=? x) && (x <? hi) then 1%nat else 0%nat.
Proof.
  revert lo. induction l as [|b rest IH]; intros lo H.
  - simpl in H. unfold coverage, proper. simpl.
    destruct (Z.eqb_spec lo hi); simpl.
    + destruct (Z.leb_spec lo x), (Z.ltb_spec x hi); simpl; try reflexivity; lia.
    + unfold covers. simpl. now destruct ((lo <=? x) && (x <? hi)).
  - simpl in H. destruct H as (H1 & H2 & H3).
    pose proof (chained_bounds _ _ _ H3) as H4.
    specialize (IH _ H3). revert IH. unfold coverage, proper. simpl.
    destruct (Z.eqb_spec lo (start b)); simpl; unfold covers; simpl;
      destruct (Z.leb_spec (start b) x), (Z.ltb_spec x (end_ b)),
               (Z.leb_spec lo x), (Z.ltb_spec x hi),
               (Z.leb_spec (end_ b) x), (Z.ltb_spec x (start b));
      simpl; intros IH; try lia.
Qed.

(** ** The partition of a chromosome *)

(** C1, as amended.  When the intervals the Phase-Block Detector returns for a
    chromosome are non-empty, lie inside the chromosome and, in start order,
    each end no later than the next begins, both stages return, and the
    phased and unphased intervals together contain every base of
    [0, chromosome_length) exactly once and no other base. *)
Theorem disjoint_phase_blocks_partition
    (bam : AlignmentFile) (chrom : string) (len : Z) (phased : list PhaseBlock) :
  check_phase_blocks bam chrom = Ok phased ->
  get_reference_length (references bam) chrom = Ok len ->
  chained 0 phased len ->
  exists unphased,
    intervals_of bam chrom = Ok (phased, unphased) /\
    partitions (phased ++ unphased) len.
Proof.
  intros Hp Hl Hc. unfold intervals_of. rewrite Hp, Hl. simpl.
  rewrite (get_unphased_blocks_chained _ _ Hc). simpl.
  eexists. split; [reflexivity|].
  intros x. rewrite coverage_app.
  rewrite (coverage_perm _ _ x (sorted_perm start _)).
  now apply coverage_gaps.
Qed.

(** The chromosome of [bam_apart]: phased [100,200) and [300,400), unphased
    [0,100), [200,300) and [400,500). *)
Lemma disjoint_phase_blocks_partition_witness :
  exists unphased,
    intervals_of bam_apart "chr1"
    = Ok ([mkPhaseBlock (VInt 100) 100 200 [VInt 1] "monophasic";
           mkPhaseBlock (VInt 300) 300 400 [VInt 2] "monophasic"], unphased) /\
    partitions
      ([mkPhaseBlock (VInt 100) 100 200 [VInt 1] "monophasic";
        mkPhaseBlock (VInt 300) 300 400 [VInt 2] "monophasic"] ++ unphased) 500.
Proof.
  apply (disjoint_phase_blocks_partition bam_apart "chr1" 500).
  - reflexivity.
  - reflexivity.
  - simpl. lia.
Defined.

(** C1, as stated, fails: two phase sets whose reads overlap give intervals
    under which base 250 lies twice. *)
Lemma overlapping_phase_sets_break_partition :
  exists phased unphased,
    intervals_of bam_overlap "chr1" = Ok (phased, unphased) /\
    spans phased = [(100, 300); (200, 400)] /\
    spans unphased = [(0, 100); (300, 200); (400, 500)] /\
    coverage (phased ++ unphased) 250 = 2%nat /\
    ~ partitions (phased ++ unphased) 500.
Proof.
  do 2 eexists. split; [reflexivity|]. repeat split.
  intros H. specialize (H 250). vm_compute in H. discriminate.
Qed.

(** ** Shared start coordinates *)

(** Two intervals alone on a chromosome that begin at the same base: the
    start is walked once per interval, and the second visit pairs the larger
    end with the shared start. *)
Lemma shared_start_pairs_end_with_start
    (a b : PhaseBlock) (len : Z) :
  start a = start b -> start a < end_ a -> end_ a <= end_ b ->
  exists out,
    get_unphased_blocks [a; b] len = Ok out /\
    In (unphased_of (end_ b, start a)) out.
Proof.
  destruct a as [ia sa ea pa ta], b as [ib sb eb pb tb]. simpl.
  intros <- Ha Hab. unfold get_unphased_blocks.
  cbn [map start end_ sorted fold_right insert_by].
  rewrite Z.leb_refl. cbn [walk_starts filter start end_ map].
  rewrite Z.eqb_refl. cbn [walk_starts filter start end_ map py_max rbind fold_left app].
  replace (Z.max ea eb) with eb by lia.
  eexists. split; [reflexivity|].
  apply sorted_In. apply in_map. apply filter_In. split.
  - simpl. right. left. reflexivity.
  - simpl. apply negb_true_iff. apply Z.eqb_neq. lia.
Qed.

(** C2 at the failing input: intervals [100,200) and [100,300) on a chromosome
    of length 500.  The start 100 is walked twice, and the complement holds
    the interval from 300 back to 100. *)
Theorem shared_start_is_walked_twice :
  exists phased unphased,
    intervals_of bam_shared_start "chr1" = Ok (phased, unphased) /\
    spans phased = [(100, 200); (100, 300)] /\
    sorted (fun z => z) (map start phased) = [100; 100] /\
    spans unphased = [(0, 100); (300, 100); (300, 500)].
Proof. do 2 eexists. split; [reflexivity|]. repeat split. Qed.

(** ** Touching intervals and degenerate gaps *)

(** C7, as amended.  The Interval Complementer always returns, and no
    interval it emits has [start = end].  When the phased intervals are
    non-empty, lie inside the chromosome and, in the given order, each end no
    later than the next begins, every emitted interval has [start < end], and
    where one phased interval ends at the base at which another begins no
    emitted interval lies between the two. *)
Theorem unphased_blocks_never_degenerate (phase_blocks : list PhaseBlock) (len : Z) :
  exists out,
    get_unphased_blocks phase_blocks len = Ok out /\
    (forall u, In u out -> start u <> end_ u) /\
    (chained 0 phase_blocks len ->
     (forall u, In u out -> start u < end_ u) /\
     (forall a b u, In a phase_blocks -> In b phase_blocks -> end_ a = start b ->
                    In u out -> ~ (end_ a <= start u /\ end_ u <= start b))).
Proof.
  destruct (get_unphased_blocks_total phase_blocks len) as (out & Hout).
  exists out. split; [assumption|]. split.
  - intros u Hu. now apply (get_unphased_blocks_proper _ _ _ _ Hout Hu).
  - intros Hc.
    assert (Hlt : forall u, In u out -> start u < end_ u).
    { intros u Hu. rewrite (get_unphased_blocks_chained _ _ Hc) in Hout.
      injection Hout as <-. apply sorted_In in Hu. apply in_map_iff in Hu.
      destruct Hu as (p & <- & Hp). apply filter_In in Hp. destruct Hp as (Hin & Hp).
      pose proof (gaps_ordered _ _ _ Hc) as Hord.
      rewrite Forall_forall in Hord. specialize (Hord _ Hin).
      apply negb_true_iff, Z.eqb_neq in Hp. simpl. lia. }
    split; [exact Hlt|].
    intros a b u _ _ Hab Hu (H1 & H2). specialize (Hlt u Hu). lia.
Qed.

(** The touching intervals [100,200) and [200,300) on a chromosome of length
    500: the complement is [0,100) and [300,500), nothing at base 200. *)
Lemma unphased_blocks_never_degenerate_witness :
  exists out,
    get_unphased_blocks
      [mkPhaseBlock (VInt 100) 100 200 [VInt 1] "monophasic";
       mkPhaseBlock (VInt 200) 200 300 [VInt 2] "monophasic"] 500 = Ok out /\
    spans out = [(0, 100); (300, 500)] /\
    (forall u, In u out -> start u < end_ u).
Proof.
  destruct (unphased_blocks_never_degenerate
              [mkPhaseBlock (VInt 100) 100 200 [VInt 1] "monophasic";
               mkPhaseBlock (VInt 200) 200 300 [VInt 2] "monophasic"] 500)
    as (out & Hout & _ & Hc).
  exists out. split; [exact Hout|]. split.
  - vm_compute in Hout. injection Hout as <-. reflexivity.
  - apply Hc. simpl. lia.
Defined.

(** C7, as stated, fails: on overlapping phased intervals an interval that
    runs backwards, from 300 to 200, is emitted. *)
Lemma overlapping_blocks_emit_backward_interval :
  exists out u,
    get_unphased_blocks
      [mkPhaseBlock (VInt 100) 100 300 [VInt 1] "monophasic";
       mkPhaseBlock (VInt 200) 200 400 [VInt 1] "monophasic"] 500 = Ok out /\
    In u out /\ ~ start u < end_ u.
Proof.
  eexists. exists (unphased_of (300, 200)). split; [reflexivity|]. split.
  - simpl. right. left. reflexivity.
  - simpl. lia.
Qed.

(** ** Haplotype labels and the status of a phase block *)

Lemma value_eqb_eq (a b : value) : value_eqb a b = true <-> a = b.
Proof.
  destruct a, b; simpl; split; intros H; try discriminate; try reflexivity.
  - apply Z.eqb_eq in H. now subst.
  - injection H as ->. apply Z.eqb_refl.
  - apply String.eqb_eq in H. now subst.
  - injection H as ->. apply String.eqb_refl.
Qed.

Lemma value_eqb_refl (a : value) : value_eqb a a = true.
Proof. now apply value_eqb_eq. Qed.

Lemma py_in_str_among_ints (s : string) (l : list value) :
  forallb is_int l = true -> py_in (VStr s) l = false.
Proof.
  induction l as [|v rest IH]; simpl; intros H.
  - reflexivity.
  - apply andb_true_iff in H. destruct H as (Hv & Hrest).
    destruct v; try discriminate. simpl. now apply IH.
Qed.

Lemma int_labels_get (k : value) (d : defaultdict value) :
  int_labels d -> forallb is_int (dd_get k d) = true.
Proof.
  induction 1 as [|[k' l] rest Hl _ IH]; simpl.
  - reflexivity.
  - destruct (value_eqb k k'); assumption.
Qed.

Lemma int_labels_append (k v : value) (d : defaultdict value) :
  is_int v = true -> int_labels d -> int_labels (dd_append k v d).
Proof.
  intros Hv. unfold dd_append. induction 1 as [|[k' l] rest Hl Hrest IH]; simpl.
  - constructor; [simpl; now rewrite Hv | constructor].
  - destruct (value_eqb k k').
    + constructor; [|assumption]. simpl in *. rewrite forallb_app, Hl. simpl.
      now rewrite Hv.
    + constructor; assumption.
Qed.

Lemma collect_tags_int_labels (reads : list read) pd cd pd' cd' :
  (forall r v, In r reads -> lookup_tag "HP" (tags r) = Some v -> is_int v = true) ->
  int_labels pd ->
  collect_tags reads pd cd = Ok (pd', cd') ->
  int_labels pd'.
Proof.
  revert pd cd. induction reads as [|r rest IH]; simpl; intros pd cd Hint Hpd H.
  - now injection H as <- <-.
  - unfold has_tag, get_tag in H.
    destruct (lookup_tag "HP" (tags r)) as [hp|] eqn:Hhp.
    + destruct (lookup_tag "PS" (tags r)) as [ps|]; simpl in H; [|discriminate].
      apply IH in H; [assumption | |].
      * intros r' v Hr'. apply Hint. now right.
      * apply int_labels_append; [|assumption].
        apply (Hint r hp); [now left | assumption].
    + apply IH in H; [assumption | | assumption].
      intros r' v Hr'. apply Hint. now right.
Qed.

Lemma make_block_int_labels pd cd k b :
  int_labels pd -> make_block pd cd k = Ok b -> status b = "monophasic".
Proof.
  intros Hpd. unfold make_block.
  rewrite (py_in_str_among_ints "1" _ (int_labels_get k _ Hpd)). simpl.
  destruct (np_amin _); simpl; [|discriminate].
  destruct (np_amax _); simpl; [|discriminate].
  destruct (dd_get k pd); simpl; [discriminate|].
  now intros [= <-].
Qed.

Lemma mapM_Forall {A B} (f : A -> result B) (P : B -> Prop) (l : list A) (out : list B) :
  (forall x y, f x = Ok y -> P y) -> mapM f l = Ok out -> Forall P out.
Proof.
  intros Hf. revert out. induction l as [|x rest IH]; simpl; intros out H.
  - injection H as <-. constructor.
  - destruct (f x) as [y|] eqn:Hy; simpl in H; [|discriminate].
    destruct (mapM f rest) as [ys|]; simpl in H; [|discriminate].
    injection H as <-. constructor; [now apply (Hf x) | now apply IH].
Qed.

(** When the haplotype tags are integers, as the alignment format stores
    them, the test against the strings '1' and '2' never succeeds: every
    block is reported monophasic, whatever the reads of its phase set carry. *)
Lemma integer_tags_never_biphasic (bam : AlignmentFile) (chrom : string) blocks :
  (forall r v, In r (alignments bam) ->
               lookup_tag "HP" (tags r) = Some v -> is_int v = true) ->
  check_phase_blocks bam chrom = Ok blocks ->
  Forall (fun b => status b = "monophasic") blocks.
Proof.
  intros Hint. unfold check_phase_blocks.
  destruct (collect_tags _ _ _) as [[pd cd]|] eqn:Hc; simpl; [|discriminate].
  destruct (mapM _ _) as [bs|] eqn:Hm; simpl; [|discriminate].
  intros [= <-].
  apply collect_tags_int_labels in Hc; [| |constructor].
  - apply Forall_forall. intros b Hb. apply sorted_In in Hb.
    apply (mapM_Forall _ (fun b => status b = "monophasic")) in Hm.
    + rewrite Forall_forall in Hm. now apply Hm.
    + intros k y. now apply make_block_int_labels.
  - intros r v Hr. apply Hint. unfold fetch in Hr. now apply filter_In in Hr.
Qed.

(** C3 at the failing input: one phase set, one read tagged haplotype 1 and
    one tagged haplotype 2.  Both labels occur in the group, and the block is
    emitted as monophasic with the single label 1. *)
Theorem both_haplotypes_reported_monophasic :
  py_in (VInt 1) (group_labels (fetch bam_both_int "chr1") (VInt 100)) = true /\
  py_in (VInt 2) (group_labels (fetch bam_both_int "chr1") (VInt 100)) = true /\
  check_phase_blocks bam_both_int "chr1"
  = Ok [mkPhaseBlock (VInt 100) 100 200 [VInt 1] "monophasic"].
Proof. repeat split. Qed.

(** With the tags as strings the same group is emitted as biphasic, with the
    integer labels 1 and 2. *)
Example string_tags_reported_biphasic :
  check_phase_blocks bam_both_str "chr1"
  = Ok [mkPhaseBlock (VInt 100) 100 200 [VInt 1; VInt 2] "biphasic"].
Proof. reflexivity. Qed.

(** No emitted block has an empty list of labels. *)
Lemma phase_never_empty (bam : AlignmentFile) (chrom : string) blocks :
  check_phase_blocks bam chrom = Ok blocks ->
  Forall (fun b => phase b <> []) blocks.
Proof.
  unfold check_phase_blocks.
  destruct (collect_tags _ _ _) as [[pd cd]|]; simpl; [|discriminate].
  destruct (mapM _ _) as [bs|] eqn:Hm; simpl; [|discriminate].
  intros [= <-]. apply Forall_forall. intros b Hb. apply sorted_In in Hb.
  apply (mapM_Forall _ (fun b => phase b <> [])) in Hm.
  - rewrite Forall_forall in Hm. now apply Hm.
  - intros k y. unfold make_block.
    destruct (_ && _);
      (destruct (np_amin _); simpl; [|discriminate]);
      (destruct (np_amax _); simpl; [|discriminate]).
    + now intros [= <-].
    + destruct (dd_get k pd); simpl; [discriminate|]. now intros [= <-].
Qed.

(** ** The status of a phase block when the haplotype tags are strings *)

Lemma value_eqb_spec (a b : value) : reflect (a = b) (value_eqb a b).
Proof.
  destruct (value_eqb a b) eqn:E; constructor.
  - now apply value_eqb_eq.
  - intros H. apply value_eqb_eq in H. congruence.
Qed.

Section DefaultDictFacts.
Context {V : Type}.

Lemma dd_get_extend (k k' : value) (xs : list V) (d : defaultdict V) :
  dd_get k (dd_extend k' xs d)
  = if value_eqb k k' then dd_get k d ++ xs else dd_get k d.
Proof.
  induction d as [|[k'' l] rest IH]; simpl.
  - now destruct (value_eqb k k').
  - destruct (value_eqb_spec k' k'') as [<-|Hne]; simpl.
    + now destruct (value_eqb k k').
    + destruct (value_eqb_spec k k'') as [<-|Hne'].
      * destruct (value_eqb_spec k k'); [congruence | reflexivity].
      * exact IH.
Qed.

Lemma dd_keys_extend (k : value) (xs : list V) (d : defaultdict V) :
  dd_keys (dd_extend k xs d)
  = if existsb (value_eqb k) (dd_keys d) then dd_keys d else dd_keys d ++ [k].
Proof.
  unfold dd_keys. induction d as [|[k' l] rest IH]; simpl.
  - reflexivity.
  - destruct (value_eqb k k'); simpl; [reflexivity|].
    rewrite IH. now destruct (existsb _ _).
Qed.

Lemma dd_extend_nonempty (k : value) (xs : list V) (d : defaultdict V) :
  xs <> [] -> Forall (fun entry => snd entry <> []) d ->
  Forall (fun entry => snd entry <> []) (dd_extend k xs d).
Proof.
  intros Hxs. induction 1 as [|[k' l] rest Hl Hrest IH]; simpl.
  - constructor; [assumption | constructor].
  - destruct (value_eqb k k'); constructor; try assumption.
    simpl. intros E. apply app_eq_nil in E. now destruct E.
Qed.

Lemma dd_get_key_nonempty (k : value) (d : defaultdict V) :
  Forall (fun entry => snd entry <> []) d -> In k (dd_keys d) -> dd_get k d <> [].
Proof.
  unfold dd_keys. induction 1 as [|[k' l] rest Hl Hrest IH]; simpl.
  - contradiction.
  - intros [->|Hin].
    + now rewrite value_eqb_refl.
    + destruct (value_eqb k k'); [assumption | now apply IH].
Qed.
End DefaultDictFacts.

(** After the first loop both dictionaries have the same keys, no key has an
    empty list, and the labels filed under a key are those of its reads. *)
Lemma collect_tags_spec (reads : list read) pd cd pd' cd' :
  collect_tags reads pd cd = Ok (pd', cd') ->
  dd_keys pd = dd_keys cd ->
  Forall (fun entry => snd entry <> []) pd ->
  Forall (fun entry => snd entry <> []) cd ->
  dd_keys pd' = dd_keys cd' /\
  Forall (fun entry => snd entry <> []) pd' /\
  Forall (fun entry => snd entry <> []) cd' /\
  forall k, dd_get k pd' = dd_get k pd ++ group_labels reads k.
Proof.
  revert pd cd. induction reads as [|r rest IH]; simpl; intros pd cd H Hk Hp Hc.
  - injection H as <- <-. repeat split; try assumption.
    intros k. now rewrite app_nil_r.
  - unfold has_tag, get_tag in H.
    destruct (lookup_tag "HP" (tags r)) as [hp|] eqn:Hhp.
    + destruct (lookup_tag "PS" (tags r)) as [ps|] eqn:Hps; simpl in H; [|discriminate].
      apply IH in H.
      * destruct H as (H1 & H2 & H3 & H4). repeat split; try assumption.
        intros k. rewrite H4. unfold dd_append. rewrite dd_get_extend.
        destruct (value_eqb k ps); [now rewrite <- app_assoc | reflexivity].
      * unfold dd_append. rewrite !dd_keys_extend. now rewrite Hk.
      * apply dd_extend_nonempty; [discriminate | assumption].
      * apply dd_extend_nonempty; [discriminate | assumption].
    + apply IH in H; assumption.
Qed.

Lemma collect_tags_total (reads : list read) pd cd :
  (forall r, In r reads -> has_tag r "HP" = true -> has_tag r "PS" = true) ->
  exists pd' cd', collect_tags reads pd cd = Ok (pd', cd').
Proof.
  revert pd cd. induction reads as [|r rest IH]; simpl; intros pd cd Hps.
  - now exists pd, cd.
  - destruct (has_tag r "HP") eqn:Hhp.
    + pose proof (Hps r (or_introl eq_refl) Hhp) as Hp.
      unfold has_tag, get_tag in *.
      destruct (lookup_tag "PS" (tags r)); [|discriminate].
      destruct (lookup_tag "HP" (tags r)); [|discriminate]. simpl.
      apply IH. intros r' Hr'. apply Hps. now right.
    + apply IH. intros r' Hr'. apply Hps. now right.
Qed.

Lemma mapM_total {A B} (f : A -> result B) (l : list A) :
  (forall x, In x l -> exists y, f x = Ok y) -> exists out, mapM f l = Ok out.
Proof.
  induction l as [|x rest IH]; simpl; intros Hf.
  - now exists [].
  - destruct (Hf x (or_introl eq_refl)) as (y & ->).
    destruct IH as (ys & ->); [intros x' Hx'; apply Hf; now right|].
    simpl. now exists (y :: ys).
Qed.

Lemma mapM_In {A B} (f : A -> result B) (l : list A) (out : list B) (y : B) :
  mapM f l = Ok out -> In y out -> exists x, In x l /\ f x = Ok y.
Proof.
  revert out. induction l as [|x rest IH]; simpl; intros out H Hy.
  - injection H as <-. contradiction.
  - destruct (f x) as [y'|] eqn:Hfx; simpl in H; [|discriminate].
    destruct (mapM f rest) as [ys|]; simpl in H; [|discriminate].
    injection H as <-. destruct Hy as [->|Hy].
    + exists x. now split; [left|].
    + destruct (IH ys eq_refl Hy) as (x' & Hx' & Hfx'). exists x'. now split; [right|].
Qed.

Lemma make_block_total pd cd k :
  dd_get k pd <> [] -> dd_get k cd <> [] -> exists b, make_block pd cd k = Ok b.
Proof.
  intros Hp Hc. unfold make_block, np_amin, np_amax, py_max.
  destruct (dd_get k cd); [congruence|]. destruct (dd_get k pd); [congruence|].
  destruct (_ && _); simpl; eexists; reflexivity.
Qed.

(** What the second loop makes of one group. *)
Lemma make_block_status pd cd k b :
  make_block pd cd k = Ok b ->
  id b = k /\
  (status b = "biphasic" <->
   py_in (VStr "1") (dd_get k pd) = true /\ py_in (VStr "2") (dd_get k pd) = true) /\
  (status b = "monophasic" <->
   ~ (py_in (VStr "1") (dd_get k pd) = true /\ py_in (VStr "2") (dd_get k pd) = true)) /\
  (status b = "monophasic" -> exists L rest, dd_get k pd = L :: rest /\ phase b = [L]).
Proof.
  unfold make_block.
  destruct (py_in (VStr "1") (dd_get k pd)), (py_in (VStr "2") (dd_get k pd)); simpl;
    (destruct (np_amin _); simpl; [|discriminate]);
    (destruct (np_amax _); simpl; [|discriminate]);
    try (destruct (dd_get k pd) as [|L rest]; simpl; [discriminate|]);
    intros [= <-]; simpl; repeat split; try tauto; try discriminate;
    try (intros _ [? ?]; discriminate); try (intros [? ?]; discriminate);
    try (intros H; exfalso; apply H; now split);
    try (intros _; now exists L, rest).
Qed.

Lemma group_labels_In (reads : list read) (k v : value) :
  In v (group_labels reads k) ->
  exists r, In r reads /\ lookup_tag "HP" (tags r) = Some v.
Proof.
  unfold group_labels. intros H. apply in_flat_map in H.
  destruct H as (r & Hr & Hv). exists r. split; [assumption|].
  destruct (lookup_tag "HP" (tags r)) as [hp|]; [|contradiction].
  destruct (lookup_tag "PS" (tags r)) as [ps|]; [|contradiction].
  destruct (value_eqb k ps); [|contradiction].
  destruct Hv as [->|[]]. reflexivity.
Qed.

(** When the haplotype tags are the strings '1' and '2' and every tagged read
    has a phase set, the Phase-Block Detector returns, and for each block:
    it is biphasic exactly when both labels occur among the reads of its
    phase set, monophasic exactly when one of the two does, a monophasic
    block carries one label and that label occurs in the group, and the list
    of labels is never empty. *)
Lemma string_tags_status (bam : AlignmentFile) (chrom : string) :
  (forall r, In r (fetch bam chrom) -> has_tag r "HP" = true -> has_tag r "PS" = true) ->
  (forall r v, In r (fetch bam chrom) -> lookup_tag "HP" (tags r) = Some v ->
               v = VStr "1" \/ v = VStr "2") ->
  exists blocks,
    check_phase_blocks bam chrom = Ok blocks /\
    Forall (fun b =>
              let g := group_labels (fetch bam chrom) (id b) in
              (status b = "biphasic" <->
               py_in (VStr "1") g = true /\ py_in (VStr "2") g = true) /\
              (status b = "monophasic" <->
               xorb (py_in (VStr "1") g) (py_in (VStr "2") g) = true) /\
              (status b = "monophasic" ->
               exists L, phase b = [L] /\ py_in L g = true) /\
              phase b <> [])
           blocks.
Proof.
  intros Hps Hstr.
  destruct (collect_tags_total (fetch bam chrom) [] [] Hps) as (pd & cd & Hc).
  destruct (collect_tags_spec _ _ _ _ _ Hc eq_refl (Forall_nil _) (Forall_nil _))
    as (Hkeys & Hpd & Hcd & Hget).
  simpl in Hget.
  destruct (mapM_total (make_block pd cd) (dd_keys pd)) as (bs & Hbs).
  { intros k Hk. apply make_block_total.
    - now apply dd_get_key_nonempty.
    - apply dd_get_key_nonempty; [assumption | now rewrite <- Hkeys]. }
  assert (Hcheck : check_phase_blocks bam chrom = Ok (sorted start bs)).
  { unfold check_phase_blocks. rewrite Hc. simpl. rewrite Hbs. reflexivity. }
  exists (sorted start bs). split; [exact Hcheck|].
  pose proof (phase_never_empty _ _ _ Hcheck) as Hne. rewrite Forall_forall in Hne.
  apply Forall_forall. intros b Hb. specialize (Hne b Hb).
  apply sorted_In in Hb.
  destruct (mapM_In _ _ _ _ Hbs Hb) as (k & Hk & Hmk).
  destruct (make_block_status _ _ _ _ Hmk) as (Hid & Hbi & Hmono & Hlabel).
  assert (Hg : dd_get k pd <> []) by now apply dd_get_key_nonempty.
  rewrite Hget in Hbi, Hmono, Hlabel, Hg. cbv zeta. rewrite Hid.
  assert (Hone : py_in (VStr "1") (group_labels (fetch bam chrom) k) = true \/
                 py_in (VStr "2") (group_labels (fetch bam chrom) k) = true).
  { destruct (group_labels (fetch bam chrom) k) as [|h rest] eqn:Eg; [congruence|].
    assert (Hin : In h (group_labels (fetch bam chrom) k)) by (rewrite Eg; now left).
    apply group_labels_In in Hin. destruct Hin as (r & Hr & Hv).
    destruct (Hstr r h Hr Hv) as [->| ->]; simpl; auto. }
  split; [exact Hbi|]. split; [|split; [|exact Hne]].
  - rewrite Hmono.
    destruct (py_in (VStr "1") _), (py_in (VStr "2") _); simpl; split; intros H;
      try reflexivity; try discriminate;
      try (intros [? ?]; discriminate);
      try (destruct Hone; discriminate).
    exfalso. apply H. now split.
  - intros Hm. destruct (Hlabel Hm) as (L & rest & Eg & Hphase).
    exists L. split; [assumption|]. rewrite Eg. simpl. now rewrite value_eqb_refl.
Qed.

(** ** Calls that return *)

Lemma returns_bind {A B} (m : M A) (k : A -> M B) (w : world) :
  returns (bind m k) w -> exists a w1, m w = (Ok a, w1) /\ returns (k a) w1.
Proof.
  unfold returns, bind. intros (b & w' & H).
  destruct (m w) as [[a|e] w1]; [|discriminate].
  exists a, w1. split; [reflexivity | now exists b, w'].
Qed.

Lemma bind_Ok {A B} (m : M A) (k : A -> M B) (w w' : world) (b : B) :
  bind m k w = (Ok b, w') -> exists a w1, m w = (Ok a, w1) /\ k a w1 = (Ok b, w').
Proof.
  unfold bind. intros H. destruct (m w) as [[a|e] w1]; [|discriminate].
  now exists a, w1.
Qed.

Lemma foldM_cons_returns {A S} (body : A -> S -> M S) x rest acc w :
  returns (foldM body (x :: rest) acc) w -> returns (body x acc) w.
Proof.
  simpl. intros H. apply returns_bind in H. destruct H as (a & w1 & H & _).
  now exists a, w1.
Qed.

(** ** The cross-haplotype merge *)

(** C4 on the code: [merge_haplotypes] takes two streams and its body is
    empty.  Called with the three streams of a chromosome, as [main] calls it,
    it raises [TypeError]; called with two it returns [None].  In neither case
    is a merged stream produced. *)
Theorem merge_haplotypes_produces_no_stream (h1 h2 unph : value) (w : world) :
  merge_haplotypes [h1; h2; unph] w = (Raise TypeError, w) /\
  merge_haplotypes [h1; h2] w = (Ok VNone, w).
Proof. split; reflexivity. Qed.

(** No chromosome is ever processed to the end: the last step is the call of
    [merge_haplotypes] with three arguments. *)
Lemma call_chromosome_never_returns
    (t : tools) (d : string) (bam : AlignmentFile) (tmpdmos chrom : string)
    (acc : list value) (w : world) :
  ~ returns (call_chromosome (sniffles t) merge_haplotypes t d bam tmpdmos chrom acc) w.
Proof.
  unfold call_chromosome. intros H.
  do 7 (apply returns_bind in H; destruct H as (? & ? & _ & H)).
  apply returns_bind in H. destruct H as (v & w1 & H & _). discriminate.
Qed.

(** So the program raises on every alignment file that has a chromosome. *)
Lemma main_never_returns_on_a_chromosome
    (t : tools) (bam : AlignmentFile) (args_vcf : string) (w : world) :
  references bam <> [] -> ~ returns (main t bam args_vcf) w.
Proof.
  intros Hrefs H. unfold main in H.
  apply returns_bind in H. destruct H as (d & w1 & _ & H). unfold main_with in H.
  apply returns_bind in H. destruct H as (opened & w1' & Hopen & H).
  assert (Hopened : opened = bam).
  { unfold lift, open_AlignmentFile in Hopen.
    destruct (references bam); [congruence | now injection Hopen as <- _]. }
  subst opened.
  apply returns_bind in H. destruct H as (tmpdmos & w2 & _ & H).
  apply returns_bind in H. destruct H as (tmpdvcf & w3 & _ & H).
  apply returns_bind in H. destruct H as (vcfs & w4 & H & _).
  destruct (references bam) as [|[chrom len] rest]; [congruence|]. simpl in H.
  assert (Hr : returns (foldM (call_chromosome (sniffles t) merge_haplotypes t d bam tmpdmos)
                          (chrom :: map fst rest) []) w3) by now exists vcfs, w4.
  apply foldM_cons_returns in Hr.
  now apply call_chromosome_never_returns in Hr.
Qed.

(** ** concat_vcf *)

(** C8.  Given the empty list, [concat_vcf] returns [None] and leaves the
    world as it was: no subprocess is started, no file is created, written or
    removed, whatever the tools would do and whether or not [output] is
    given. *)
Theorem concat_vcf_empty_is_noop
    (t : tools) (default_output : string) (output : option value) (w : world) :
  concat_vcf t default_output [] output w = (Ok VNone, w).
Proof. reflexivity. Qed.

(** On a list that is not empty the tool is started once and the inputs are
    removed. *)
Example concat_vcf_starts_the_tool :
  concat_vcf (quiet_tools 0) "/tmp/tmp.vcf" [VStr "a.vcf"; VStr "b.vcf"] None
    (mkWorld 1 [("a.vcf", EmptyFile); ("b.vcf", EmptyFile)] [])
  = (Ok (VStr "/tmp/tmp.vcf"),
     mkWorld 1 []
       [["bcftools"; "concat"; "-a"; "a.vcf"; "b.vcf";
         "|"; "bcftools"; "sort"; "-o"; "/tmp/tmp.vcf"]]).
Proof. reflexivity. Qed.

(** What a call of [concat_vcf] returns, when it returns. *)
Lemma concat_vcf_returns_output
    (t : tools) (default_output : string) (vcfs : list value) (output : option value)
    (w w' : world) (v : value) :
  concat_vcf t default_output vcfs output w = (Ok v, w') ->
  v = match vcfs with
      | [] => VNone
      | _ :: _ => match output with Some o => o | None => VStr default_output end
      end.
Proof.
  unfold concat_vcf. destruct vcfs as [|x rest].
  - now intros [= <- _].
  - intros H.
    apply bind_Ok in H. destruct H as (? & ? & _ & H).
    apply bind_Ok in H. destruct H as (? & ? & _ & H).
    apply bind_Ok in H. destruct H as (? & ? & _ & H).
    now injection H as <- _.
Qed.

(** C10.  The default of [output] is the name drawn when [concat_vcf] is
    defined.  Any two calls that leave [output] out and return a path return
    that one name, whatever the files they are given and whatever the state
    of the world at the time of either call. *)
Theorem default_output_is_shared
    (t : tools) (w0 w1 : world) (d : string)
    (vcfsA vcfsB : list value) (wA wA' wB wB' : world) (pA pB : string) :
  define_concat_vcf w0 = (Ok d, w1) ->
  concat_vcf t d vcfsA None wA = (Ok (VStr pA), wA') ->
  concat_vcf t d vcfsB None wB = (Ok (VStr pB), wB') ->
  pA = pB /\ pA = d /\ d = (default_prefix ++ fresh (next_tmp w0) ++ ".vcf")%string.
Proof.
  intros Hd HA HB.
  apply concat_vcf_returns_output in HA, HB.
  destruct vcfsA; [discriminate|]. destruct vcfsB; [discriminate|].
  injection HA as ->. injection HB as ->.
  unfold define_concat_vcf, mkstemp in Hd. injection Hd as <- _.
  repeat split.
Qed.

(** The module is loaded in an empty world and draws /tmp/tmp.vcf; two later
    calls, on different files and in different worlds, both return it. *)
Lemma default_output_is_shared_witness :
  "/tmp/tmp.vcf" = "/tmp/tmp.vcf" /\ "/tmp/tmp.vcf" = "/tmp/tmp.vcf" /\
  "/tmp/tmp.vcf" = (default_prefix ++ fresh 0 ++ ".vcf")%string.
Proof.
  apply (default_output_is_shared (quiet_tools 0)
           (mkWorld 0 [] []) (mkWorld 1 [("/tmp/tmp.vcf", EmptyFile)] [])
           "/tmp/tmp.vcf"
           [VStr "a.vcf"] [VStr "b.vcf"; VStr "c.vcf"]
           (mkWorld 3 [("a.vcf", EmptyFile)] [])
           (mkWorld 3 [] [["bcftools"; "concat"; "-a"; "a.vcf";
                           "|"; "bcftools"; "sort"; "-o"; "/tmp/tmp.vcf"]])
           (mkWorld 7 [("b.vcf", EmptyFile); ("c.vcf", EmptyFile)] [["ls"]])
           (mkWorld 7 [] [["ls"];
                          ["bcftools"; "concat"; "-a"; "b.vcf"; "c.vcf";
                           "|"; "bcftools"; "sort"; "-o"; "/tmp/tmp.vcf"]])
           "/tmp/tmp.vcf" "/tmp/tmp.vcf");
    reflexivity.
Defined.

(** ** make_bams: the read-set of one interval and one label *)

Lemma filter_twice {A} (f g : A -> bool) (l : list A) :
  filter f (filter g l) = filter (fun x => g x && f x) l.
Proof.
  induction l as [|x rest IH]; simpl.
  - reflexivity.
  - destruct (g x); simpl; [destruct (f x)|]; now rewrite IH.
Qed.

(** An interval whose region the query accepts and which is not empty. *)
Lemma fetch_region_proper (bam : AlignmentFile) (chrom : string) (s e : Z) :
  0 <= s -> s < e -> e <= MAX_POS ->
  fetch_region bam chrom s e = Ok (filter (fun r => intersects r s e) (fetch bam chrom)).
Proof.
  intros H0 Hlt Hmax. unfold fetch_region, valid_region.
  destruct (Z.leb_spec s e); [|lia]. destruct (Z.leb_spec 0 s); [|lia].
  destruct (Z.ltb_spec s MAX_POS); [|lia]. destruct (Z.leb_spec 0 e); [|lia].
  destruct (Z.leb_spec e MAX_POS); [|lia]. simpl.
  destruct (Z.eqb_spec s e); [lia | reflexivity].
Qed.

Lemma written_for_expected (bam : AlignmentFile) (chrom : string) (s e : Z) (L : value) :
  written_for L (filter (fun r => intersects r s e) (fetch bam chrom))
  = filter (fun r => intersects r s e && (value_eqb L (VStr "u") || tagged r L))
           (fetch bam chrom).
Proof.
  unfold written_for. destruct (value_eqb L (VStr "u")) eqn:HL.
  - apply filter_ext. intros r. now rewrite orb_true_l, andb_true_r.
  - rewrite filter_twice. apply filter_ext. intros r. f_equal.
    unfold has_tag, get_tag, tagged. simpl.
    now destruct (lookup_tag "HP" (tags r)).
Qed.

Lemma read_set_expected (bam : AlignmentFile) (chrom : string)
    (block : PhaseBlock) (L : value) :
  0 <= start block -> start block < end_ block -> end_ block <= MAX_POS ->
  read_set bam chrom block L = expected_read_set bam chrom block L.
Proof.
  intros H0 Hlt Hmax. unfold read_set, expected_read_set.
  rewrite fetch_region_proper by assumption. apply written_for_expected.
Qed.

(** Temporary names differ when their counters differ. *)
Lemma length_append (s1 s2 : string) :
  String.length (s1 ++ s2) = (String.length s1 + String.length s2)%nat.
Proof. induction s1 as [|c s1 IH]; simpl; [reflexivity | now rewrite IH]. Qed.

Lemma fresh_length (n : nat) : String.length (fresh n) = n.
Proof. induction n as [|n IH]; simpl; [reflexivity | now rewrite IH]. Qed.

Lemma tmp_bam_inj (n m : nat) : tmp_bam n = tmp_bam m -> n = m.
Proof.
  unfold tmp_bam. intros H. apply (f_equal String.length) in H.
  rewrite !length_append, !fresh_length in H. lia.
Qed.

Lemma tmp_bam_eqb (n m : nat) : n <> m -> String.eqb (tmp_bam n) (tmp_bam m) = false.
Proof.
  intros H. apply String.eqb_neq. intros E. now apply tmp_bam_inj in E.
Qed.

Lemma make_bams_loop (bam : AlignmentFile) (chrom : string) (block : PhaseBlock)
    (fetched : list read) (phases : list value) (acc : list string) (w : world) :
  fetch_region bam chrom (start block) (end_ block) = Ok fetched ->
  foldM (make_bam bam chrom block) phases acc w
  = (Ok (acc ++ map tmp_bam (seq (next_tmp w) (List.length phases))),
     mkWorld (next_tmp w + List.length phases)
             (bam_entries bam chrom block (next_tmp w) phases ++ files w)
             (invocations w)).
Proof.
  intros Hf. revert acc w. induction phases as [|L rest IH]; intros acc w.
  - simpl. unfold ret. rewrite app_nil_r, Nat.add_0_r. now destruct w.
  - cbn [foldM]. unfold bind at 1. unfold make_bam at 1.
    unfold bind at 1. unfold mkstemp at 1.
    unfold bind at 1. unfold write_file at 1.
    unfold bind at 1. unfold lift at 1. rewrite Hf.
    unfold bind at 1. unfold write_file at 1. unfold ret at 1.
    cbn [next_tmp files invocations]. rewrite IH.
    cbn [next_tmp files invocations List.length seq map bam_entries].
    unfold read_set. rewrite Hf.
    rewrite <- !app_assoc. simpl. f_equal. f_equal. lia.
Qed.

Lemma lookup_file_older (bam : AlignmentFile) (chrom : string) (block : PhaseBlock)
    (phases : list value) (n m : nat) (fs : list (string * file)) :
  (m < n)%nat ->
  lookup_file (tmp_bam m) (bam_entries bam chrom block n phases ++ fs)
  = lookup_file (tmp_bam m) fs.
Proof.
  revert n fs. induction phases as [|L rest IH]; intros n fs Hm; simpl.
  - reflexivity.
  - rewrite <- app_assoc. rewrite IH by lia. cbn [app lookup_file].
    rewrite !tmp_bam_eqb by lia. reflexivity.
Qed.

Lemma lookup_file_written (bam : AlignmentFile) (chrom : string) (block : PhaseBlock)
    (phases : list value) (n i : nat) (L : value) (fs : list (string * file)) :
  nth_error phases i = Some L ->
  lookup_file (tmp_bam (n + i)) (bam_entries bam chrom block n phases ++ fs)
  = Some (BamFile (read_set bam chrom block L)).
Proof.
  revert n i fs. induction phases as [|L' rest IH]; intros n i fs Hi.
  - destruct i; discriminate.
  - simpl. rewrite <- app_assoc. destruct i as [|i]; simpl in Hi.
    + injection Hi as ->. rewrite Nat.add_0_r. rewrite lookup_file_older by lia.
      cbn [app lookup_file]. now rewrite String.eqb_refl.
    + replace (n + S i)%nat with (S n + i)%nat by lia. now apply IH.
Qed.

(** C5.  For an interval with [0 <= start < end] inside the range of
    coordinates, [make_bams] returns one path per label of the interval, and
    the file at the path of label [L] holds exactly the reads of the
    chromosome whose span meets [start, end) and whose haplotype tag equals
    [L]; for the unphased label it holds every read whose span meets
    [start, end). *)
Theorem make_bams_materializes_read_sets
    (bam : AlignmentFile) (chrom : string) (block : PhaseBlock) (w : world) :
  0 <= start block -> start block < end_ block -> end_ block <= MAX_POS ->
  exists paths w',
    make_bams bam chrom block w = (Ok paths, w') /\
    List.length paths = List.length (phase block) /\
    forall i L, nth_error (phase block) i = Some L ->
      exists p,
        nth_error paths i = Some p /\
        lookup_file p (files w')
        = Some (BamFile
                  (filter (fun r => intersects r (start block) (end_ block)
                                    && (value_eqb L (VStr "u") || tagged r L))
                          (fetch bam chrom))).
Proof.
  intros H0 Hlt Hmax. unfold make_bams.
  rewrite (make_bams_loop _ _ _ _ _ _ _ (fetch_region_proper bam chrom _ _ H0 Hlt Hmax)).
  do 2 eexists. split; [reflexivity|]. split.
  - simpl. now rewrite length_map, length_seq.
  - intros i L Hi. exists (tmp_bam (next_tmp w + i)). split.
    + simpl. rewrite nth_error_map.
      assert (Hi' : (i < List.length (phase block))%nat).
      { apply nth_error_Some. congruence. }
      rewrite nth_error_seq. apply Nat.ltb_lt in Hi'. now rewrite Hi'.
    + cbn [files]. rewrite (lookup_file_written _ _ _ _ _ _ L) by assumption.
      now rewrite read_set_expected.
Qed.

(** The interval [100, 200) with the labels 1 and 2 over [bam_mixed]: two
    paths, the first holding the read of haplotype 1 that meets the interval,
    the second the read of haplotype 2. *)
Lemma make_bams_materializes_read_sets_witness :
  exists paths w',
    make_bams bam_mixed "chr1"
      (mkPhaseBlock (VInt 100) 100 200 [VInt 1; VInt 2] "biphasic") (mkWorld 0 [] [])
    = (Ok paths, w') /\
    List.length paths = 2%nat /\
    forall i L, nth_error [VInt 1; VInt 2] i = Some L ->
      exists p,
        nth_error paths i = Some p /\
        lookup_file p (files w')
        = Some (BamFile
                  (filter (fun r => intersects r 100 200
                                    && (value_eqb L (VStr "u") || tagged r L))
                          (fetch bam_mixed "chr1"))).
Proof.
  apply (make_bams_materializes_read_sets bam_mixed "chr1"
           (mkPhaseBlock (VInt 100) 100 200 [VInt 1; VInt 2] "biphasic")
           (mkWorld 0 [] [])).
  - simpl. lia.
  - simpl. lia.
  - unfold MAX_POS. simpl. lia.
Defined.

(** The read-sets of [100, 200) with the labels 1 and 2: the read of
    haplotype 2 that meets the interval is not in the read-set of label 1, nor
    is the untagged read; an unphased interval over the same span keeps all
    three reads that meet it. *)
Example make_bams_splits_by_haplotype :
  exists w',
    make_bams bam_mixed "chr1"
      (mkPhaseBlock (VInt 100) 100 200 [VInt 1; VInt 2] "biphasic") (mkWorld 0 [] [])
    = (Ok [tmp_bam 0; tmp_bam 1], w') /\
    lookup_file (tmp_bam 0) (files w') = Some (BamFile [read_h1]) /\
    lookup_file (tmp_bam 1) (files w') = Some (BamFile [read_h2]) /\
    read_set bam_mixed "chr1"
      (mkPhaseBlock (VStr "NOID") 100 200 [VStr "u"] "unphased") (VStr "u")
    = [read_h1; read_h2; read_untagged].
Proof. eexists. repeat split. Qed.

(** A read tagged with another haplotype is left out of the read-set of a
    phased label even when its span meets the interval. *)
Lemma read_set_excludes_other_haplotype
    (bam : AlignmentFile) (chrom : string) (block : PhaseBlock) (L hp : value) (r : read) :
  value_eqb L (VStr "u") = false ->
  lookup_tag "HP" (tags r) = Some hp -> hp <> L ->
  ~ In r (read_set bam chrom block L).
Proof.
  intros HL Hhp Hne Hin. unfold read_set in Hin.
  destruct (fetch_region _ _ _ _) as [fetched|]; [|contradiction].
  unfold written_for in Hin. rewrite HL in Hin.
  apply filter_In in Hin. destruct Hin as (_ & H).
  unfold has_tag, get_tag in H. rewrite Hhp in H. simpl in H.
  now apply value_eqb_eq in H.
Qed.

(** ** The coverage gate *)

Lemma enough_coverage_iff (cov : Q) : enough_coverage cov = true <-> (10 <= cov)%Q.
Proof. unfold enough_coverage. apply Qle_bool_iff. Qed.

Lemma not_enough_coverage_iff (cov : Q) : enough_coverage cov = false <-> (cov < 10)%Q.
Proof.
  rewrite <- not_true_iff_false, enough_coverage_iff. split.
  - apply Qnot_le_lt.
  - apply Qlt_not_le.
Qed.

(** C6.  Once the mean depth of a read-set is known, the inner loop of [main]
    calls the variant caller on it exactly when the depth is 10 or more, and
    then files the result under the label; below 10 the caller is not called
    and the accumulated call-result files are left as they were.  In both
    cases the read-set is removed afterwards. *)
Theorem coverage_gate_admits_from_ten
    (sniffles_fn : list value -> M value) (t : tools)
    (tmpdmos chrom : string) (block : PhaseBlock) (tmpbam : string) (phase : value)
    (variant_files : defaultdict value) (w w1 : world) (cov : Q) :
  get_coverage t tmpdmos tmpbam chrom block w = (Ok cov, w1) ->
  ((10 <= cov)%Q ->
   call_read_set sniffles_fn t tmpdmos chrom block (tmpbam, phase) variant_files w
   = (tmpvcf <- sniffles_fn [VStr tmpbam; VStr (status block)] ;;
      os_remove tmpbam ;;;
      ret (dd_append phase tmpvcf variant_files))%M w1) /\
  ((cov < 10)%Q ->
   call_read_set sniffles_fn t tmpdmos chrom block (tmpbam, phase) variant_files w
   = (os_remove tmpbam ;;; ret variant_files)%M w1).
Proof.
  intros Hcov. unfold call_read_set. cbn [fst snd].
  split; intros H; unfold bind at 1; rewrite Hcov.
  - apply enough_coverage_iff in H. rewrite H.
    unfold bind, ret. destruct (sniffles_fn _ w1) as [[v|e] w2]; reflexivity.
  - apply not_enough_coverage_iff in H. rewrite H. reflexivity.
Qed.

(** A read-set of mean depth exactly 10.0 is admitted: its call-result file
    is filed under the label. *)
Lemma coverage_gate_admits_from_ten_witness :
  fst (call_read_set working_caller (quiet_tools (10 # 1)) "/tmp/mosdepth" "chr1"
         block_100_200 ("/tmp/tmp.bam", VInt 1) [] (world_with_bam "/tmp/tmp.bam"))
  = Ok [(VInt 1, [VStr "/tmp/snifflesxx.vcf"])].
Proof.
  destruct (coverage_gate_admits_from_ten working_caller (quiet_tools (10 # 1))
              "/tmp/mosdepth" "chr1" block_100_200 "/tmp/tmp.bam" (VInt 1) []
              (world_with_bam "/tmp/tmp.bam")
              (mkWorld 2 [("/tmp/tmp.bam", BamFile [])]
                 [["mosdepth"; "-n"; "-x"; "-b"; "/tmp/tmpx.bed";
                   "/tmp/mosdepth/chr1.100"; "/tmp/tmp.bam"]])
              (10 # 1) eq_refl) as [Hadmit _].
  rewrite Hadmit.
  - reflexivity.
  - unfold Qle. simpl. lia.
Defined.

(** A read-set of mean depth 9.99 is skipped: the caller is not called,
    whatever it is, and nothing is filed. *)
Example depth_9_99_is_skipped (sniffles_fn : list value -> M value) :
  fst (call_read_set sniffles_fn (quiet_tools (999 # 100)) "/tmp/mosdepth" "chr1"
         block_100_200 ("/tmp/tmp.bam", VInt 1) [] (world_with_bam "/tmp/tmp.bam"))
  = Ok [].
Proof. reflexivity. Qed.

(** With the program's own [sniffles], an admitted read-set stops the run:
    the call passes two arguments to a function of three. *)
Example admitted_read_set_raises :
  fst (call_read_set (sniffles (quiet_tools (10 # 1))) (quiet_tools (10 # 1)) "/tmp/mosdepth" "chr1"
         block_100_200 ("/tmp/tmp.bam", VInt 1) [] (world_with_bam "/tmp/tmp.bam"))
  = Raise TypeError.
Proof. reflexivity. Qed.

(** ** The keys of the per-haplotype accumulator *)

(** Filing a call-result file under an integer label changes nothing about what
    a string key retrieves. *)
Lemma int_key_invisible_to_str_key
    (z : Z) (s : string) (tmpvcf : value) (variant_files : defaultdict value) :
  dd_get (VStr s) (dd_append (VInt z) tmpvcf variant_files)
  = dd_get (VStr s) variant_files.
Proof.
  unfold dd_append.
  induction variant_files as [|[k l] rest IH]; simpl.
  - reflexivity.
  - destruct k as [|z'|s']; simpl; try (now rewrite IH).
    destruct (z =? z'); simpl; [reflexivity | now rewrite IH].
Qed.

(** C9 on the code, with a caller that works and depth 30 everywhere, for the
    chromosome of [bam_apart]: a block of haplotype 1, a block of haplotype 2
    and three unphased intervals.  The two phased call-result files are filed
    under the integers 1 and 2; the strings '1' and '2', under which [main]
    looks them up, retrieve nothing, while 'u' retrieves the three
    unphased files. *)
Theorem phased_call_results_are_not_retrieved :
  exists phased unphased variant_files w',
    intervals_of bam_apart "chr1" = Ok (phased, unphased) /\
    foldM (call_block working_caller (quiet_tools (30 # 1)) bam_apart
             "/tmp/mosdepth" "chr1")
          (phased ++ unphased) [] (mkWorld 0 [] [])
    = (Ok variant_files, w') /\
    List.length (dd_get (VInt 1) variant_files) = 1%nat /\
    List.length (dd_get (VInt 2) variant_files) = 1%nat /\
    List.length (dd_get (VStr "u") variant_files) = 3%nat /\
    dd_get (VStr "1") variant_files = [] /\
    dd_get (VStr "2") variant_files = [].
Proof.
  do 4 eexists. split; [reflexivity|]. split; [vm_compute; reflexivity|].
  repeat split.
Qed.

(** * Further properties of the code *)

(** ** Minimum and maximum *)

Lemma fold_min_spec (l : list Z) (a : Z) :
  (fold_left Z.min l a = a \/ In (fold_left Z.min l a) l) /\
  fold_left Z.min l a <= a /\
  Forall (fun x => fold_left Z.min l a <= x) l.
Proof.
  revert a. induction l as [|x rest IH]; intros a; simpl.
  - repeat split; [now left | lia | constructor].
  - destruct (IH (Z.min a x)) as (Hin & Hle & Hall). repeat split.
    + destruct Hin as [Hin|Hin]; [|now right; right].
      destruct (Z.min_spec a x) as [[_ E]|[_ E]]; rewrite Hin, E; auto.
    + lia.
    + constructor; [lia | assumption].
Qed.

Lemma fold_max_spec (l : list Z) (a : Z) :
  (fold_left Z.max l a = a \/ In (fold_left Z.max l a) l) /\
  a <= fold_left Z.max l a /\
  Forall (fun x => x <= fold_left Z.max l a) l.
Proof.
  revert a. induction l as [|x rest IH]; intros a; simpl.
  - repeat split; [now left | lia | constructor].
  - destruct (IH (Z.max a x)) as (Hin & Hle & Hall). repeat split.
    + destruct Hin as [Hin|Hin]; [|now right; right].
      destruct (Z.max_spec a x) as [[_ E]|[_ E]]; rewrite Hin, E; auto.
    + lia.
    + constructor; [lia | assumption].
Qed.

Lemma np_amin_spec (l : list Z) (m : Z) :
  np_amin l = Ok m -> In m l /\ Forall (fun x => m <= x) l.
Proof.
  destruct l as [|a rest]; simpl; [discriminate|]. intros [= <-].
  destruct (fold_min_spec rest a) as (Hin & Hle & Hall). split.
  - destruct Hin as [->|Hin]; auto.
  - constructor; assumption.
Qed.

Lemma py_max_spec (l : list Z) (m : Z) :
  py_max l = Ok m -> In m l /\ Forall (fun x => x <= m) l.
Proof.
  destruct l as [|a rest]; simpl; [discriminate|]. intros [= <-].
  destruct (fold_max_spec rest a) as (Hin & Hle & Hall). split.
  - destruct Hin as [->|Hin]; auto.
  - constructor; assumption.
Qed.

(** ** The Phase-Block Detector, group by group *)

Lemma existsb_value_In (k : value) (l : list value) :
  existsb (value_eqb k) l = true <-> In k l.
Proof.
  rewrite existsb_exists. split.
  - intros (x & Hx & E). apply value_eqb_eq in E. now subst.
  - intros H. exists k. split; [assumption | apply value_eqb_refl].
Qed.

Lemma dd_keys_extend_NoDup {V} (k : value) (xs : list V) (d : defaultdict V) :
  NoDup (dd_keys d) -> NoDup (dd_keys (dd_extend k xs d)).
Proof.
  intros H. rewrite dd_keys_extend.
  destruct (existsb (value_eqb k) (dd_keys d)) eqn:E; [assumption|].
  apply NoDup_app; [assumption | repeat constructor; intros [] |].
  intros x Hx [<-|[]]. apply existsb_value_In in Hx. congruence.
Qed.

Lemma collect_tags_keys (reads : list read) pd cd pd' cd' :
  collect_tags reads pd cd = Ok (pd', cd') ->
  NoDup (dd_keys pd) -> NoDup (dd_keys pd').
Proof.
  revert pd cd. induction reads as [|r rest IH]; simpl; intros pd cd H Hnd.
  - now injection H as <- <-.
  - unfold has_tag, get_tag in H.
    destruct (lookup_tag "HP" (tags r)) as [hp|].
    + destruct (lookup_tag "PS" (tags r)) as [ps|]; simpl in H; [|discriminate].
      apply IH in H; [assumption|]. now apply dd_keys_extend_NoDup.
    + now apply IH in H.
Qed.

Lemma collect_tags_coordinates (reads : list read) pd cd pd' cd' :
  collect_tags reads pd cd = Ok (pd', cd') ->
  forall k, dd_get k cd' = dd_get k cd ++ group_coordinates reads k.
Proof.
  revert pd cd. induction reads as [|r rest IH]; simpl; intros pd cd H k.
  - injection H as <- <-. now rewrite app_nil_r.
  - unfold has_tag, get_tag in H.
    destruct (lookup_tag "HP" (tags r)) as [hp|].
    + destruct (lookup_tag "PS" (tags r)) as [ps|]; simpl in H; [|discriminate].
      rewrite (IH _ _ H k), dd_get_extend.
      destruct (value_eqb k ps); [now rewrite <- app_assoc | reflexivity].
    + apply (IH _ _ H k).
Qed.

Lemma collect_tags_raises (reads : list read) pd cd :
  (exists r, In r reads /\ has_tag r "HP" = true /\ has_tag r "PS" = false) ->
  collect_tags reads pd cd = Raise KeyError.
Proof.
  revert pd cd. induction reads as [|r rest IH]; intros pd cd (bad & Hin & Hhp & Hps).
  - contradiction.
  - simpl. destruct Hin as [->|Hin].
    + rewrite Hhp. unfold has_tag in Hps. unfold get_tag.
      destruct (lookup_tag "PS" (tags bad)); [discriminate | reflexivity].
    + assert (Hrest : exists r', In r' rest /\ has_tag r' "HP" = true
                                 /\ has_tag r' "PS" = false) by now exists bad.
      destruct (has_tag r "HP") eqn:Hr; [|now apply IH].
      unfold has_tag in Hr. unfold get_tag.
      destruct (lookup_tag "PS" (tags r)); simpl; [|reflexivity].
      destruct (lookup_tag "HP" (tags r)); [|discriminate]. simpl. now apply IH.
Qed.

Lemma check_phase_blocks_total (bam : AlignmentFile) (chrom : string) :
  (forall r, In r (fetch bam chrom) -> has_tag r "HP" = true -> has_tag r "PS" = true) ->
  exists blocks, check_phase_blocks bam chrom = Ok blocks.
Proof.
  intros Hps.
  destruct (collect_tags_total (fetch bam chrom) [] [] Hps) as (pd & cd & Hc).
  destruct (collect_tags_spec _ _ _ _ _ Hc eq_refl (Forall_nil _) (Forall_nil _))
    as (Hkeys & Hpd & Hcd & _).
  destruct (mapM_total (make_block pd cd) (dd_keys pd)) as (bs & Hbs).
  { intros k Hk. apply make_block_total.
    - now apply dd_get_key_nonempty.
    - apply dd_get_key_nonempty; [assumption | now rewrite <- Hkeys]. }
  exists (sorted start bs). unfold check_phase_blocks. rewrite Hc. simpl.
  now rewrite Hbs.
Qed.

(** What a successful run went through. *)
Lemma check_phase_blocks_inv (bam : AlignmentFile) (chrom : string) blocks :
  check_phase_blocks bam chrom = Ok blocks ->
  exists pd cd bs,
    collect_tags (fetch bam chrom) [] [] = Ok (pd, cd) /\
    mapM (make_block pd cd) (dd_keys pd) = Ok bs /\
    blocks = sorted start bs.
Proof.
  unfold check_phase_blocks.
  destruct (collect_tags _ _ _) as [[pd cd]|] eqn:Hc; simpl; [|discriminate].
  destruct (mapM _ _) as [bs|] eqn:Hm; simpl; [|discriminate].
  intros [= <-]. now exists pd, cd, bs.
Qed.

Lemma make_block_inv pd cd k b :
  make_block pd cd k = Ok b ->
  id b = k /\
  np_amin (dd_get k cd) = Ok (start b) /\
  np_amax (dd_get k cd) = Ok (end_ b).
Proof.
  unfold make_block.
  destruct (_ && _);
    (destruct (np_amin _) as [lo|]; simpl; [|discriminate]);
    (destruct (np_amax _) as [hi|]; simpl; [|discriminate]).
  - now intros [= <-].
  - destruct (dd_get k pd); simpl; [discriminate|]. now intros [= <-].
Qed.

Lemma mapM_map {A B} (f : A -> result B) (g : B -> A) (l : list A) (out : list B) :
  (forall x y, f x = Ok y -> g y = x) -> mapM f l = Ok out -> map g out = l.
Proof.
  intros Hg. revert out. induction l as [|x rest IH]; simpl; intros out H.
  - now injection H as <-.
  - destruct (f x) as [y|] eqn:Hy; simpl in H; [|discriminate].
    destruct (mapM f rest) as [ys|]; simpl in H; [|discriminate].
    injection H as <-. simpl. rewrite (Hg _ _ Hy). f_equal. now apply IH.
Qed.

Lemma group_labels_nonempty (reads : list read) (k : value) :
  group_labels reads k <> [] <-> exists r, In r reads /\ in_phase_set r k.
Proof.
  unfold group_labels, in_phase_set, has_tag. split.
  - intros H. destruct (flat_map _ reads) as [|v vs] eqn:E; [congruence|].
    assert (Hv : In v (flat_map
                         (fun r => match lookup_tag "HP" (tags r), lookup_tag "PS" (tags r) with
                                   | Some hp, Some p => if value_eqb k p then [hp] else []
                                   | _, _ => []
                                   end) reads)) by (rewrite E; now left).
    apply in_flat_map in Hv. destruct Hv as (r & Hr & Hv). exists r.
    split; [assumption|].
    destruct (lookup_tag "HP" (tags r)); [|contradiction].
    destruct (lookup_tag "PS" (tags r)) as [p|]; [|contradiction].
    destruct (value_eqb_spec k p) as [->|]; [|contradiction]. now split.
  - intros (r & Hr & Hhp & Hps) E.
    assert (Hv : forall v, ~ In v (flat_map
                         (fun r => match lookup_tag "HP" (tags r), lookup_tag "PS" (tags r) with
                                   | Some hp, Some p => if value_eqb k p then [hp] else []
                                   | _, _ => []
                                   end) reads)) by (rewrite E; intros v []).
    destruct (lookup_tag "HP" (tags r)) as [hp|] eqn:Ehp; [|discriminate].
    apply (Hv hp). apply in_flat_map. exists r. split; [assumption|].
    rewrite Ehp, Hps, value_eqb_refl. now left.
Qed.

Lemma group_coordinates_In (reads : list read) (k : value) (r : read) :
  In r reads -> in_phase_set r k ->
  In (reference_start r) (group_coordinates reads k) /\
  In (reference_end r) (group_coordinates reads k).
Proof.
  unfold in_phase_set, has_tag, group_coordinates. intros Hr (Hhp & Hps).
  destruct (lookup_tag "HP" (tags r)) as [hp|] eqn:Ehp; [|discriminate].
  split; apply in_flat_map; exists r; (split; [assumption|]);
    rewrite Ehp, Hps, value_eqb_refl; simpl; auto.
Qed.

Lemma group_coordinates_from (reads : list read) (k : value) (z : Z) :
  In z (group_coordinates reads k) ->
  exists r, In r reads /\ in_phase_set r k /\
            (z = reference_start r \/ z = reference_end r).
Proof.
  unfold in_phase_set, has_tag, group_coordinates. intros H.
  apply in_flat_map in H. destruct H as (r & Hr & Hz). exists r.
  split; [assumption|].
  destruct (lookup_tag "HP" (tags r)); [|contradiction].
  destruct (lookup_tag "PS" (tags r)) as [p|]; [|contradiction].
  destruct (value_eqb_spec k p) as [->|]; [|contradiction].
  repeat split. simpl in Hz. intuition.
Qed.

(** X1.  The Phase-Block Detector returns exactly when every read of the
    chromosome that has a haplotype tag also has a phase-set tag; a tagged
    read without one makes it raise [KeyError]. *)
Theorem check_phase_blocks_needs_phase_sets (bam : AlignmentFile) (chrom : string) :
  ((forall r, In r (fetch bam chrom) -> has_tag r "HP" = true -> has_tag r "PS" = true) /\
   exists blocks, check_phase_blocks bam chrom = Ok blocks) \/
  ((exists r, In r (fetch bam chrom) /\ has_tag r "HP" = true /\ has_tag r "PS" = false) /\
   check_phase_blocks bam chrom = Raise KeyError).
Proof.
  destruct (forallb (fun r => implb (has_tag r "HP") (has_tag r "PS")) (fetch bam chrom))
    eqn:E.
  - left. rewrite forallb_forall in E.
    assert (H : forall r, In r (fetch bam chrom) ->
                          has_tag r "HP" = true -> has_tag r "PS" = true).
    { intros r Hr Hhp. specialize (E r Hr). now rewrite Hhp in E. }
    split; [exact H | now apply check_phase_blocks_total].
  - right.
    assert (H : exists r, In r (fetch bam chrom) /\ has_tag r "HP" = true
                          /\ has_tag r "PS" = false).
    { apply not_true_iff_false in E. rewrite forallb_forall in E.
      induction (fetch bam chrom) as [|r rest IH].
      - exfalso. apply E. intros r [].
      - destruct (has_tag r "HP") eqn:Hhp, (has_tag r "PS") eqn:Hps;
          try (exists r; repeat split; auto; now left);
          (destruct IH as (r' & Hr' & H');
           [intros H; apply E; intros x [<-|Hx];
            [now rewrite Hhp, Hps | now apply H]
           | exists r'; split; [now right | assumption]]). }
    split; [exact H|]. unfold check_phase_blocks.
    now rewrite (collect_tags_raises _ [] [] H).
Qed.

Lemma filter_swap {A} (f g : A -> bool) (l : list A) :
  filter f (filter g l) = filter g (filter f l).
Proof.
  rewrite !filter_twice. apply filter_ext. intros x. apply andb_comm.
Qed.

Lemma collect_tags_skips_untagged (reads : list read) pd cd :
  collect_tags (filter (fun r => has_tag r "HP") reads) pd cd
  = collect_tags reads pd cd.
Proof.
  revert pd cd. induction reads as [|r rest IH]; intros pd cd; simpl.
  - reflexivity.
  - destruct (has_tag r "HP") eqn:Hhp; simpl; [|apply IH].
    rewrite Hhp. destruct (get_tag r "PS"); simpl; [|reflexivity].
    destruct (get_tag r "HP"); simpl; [apply IH | reflexivity].
Qed.

(** X2.  Reads without a haplotype tag have no influence on the phase blocks:
    the detector gives the same result, or raises the same exception, on the
    alignment file with those reads taken out. *)
Theorem check_phase_blocks_ignores_untagged (bam : AlignmentFile) (chrom : string) :
  check_phase_blocks (only_tagged bam) chrom = check_phase_blocks bam chrom.
Proof.
  unfold check_phase_blocks, only_tagged, fetch. simpl.
  rewrite filter_swap. fold (fetch bam chrom).
  now rewrite collect_tags_skips_untagged.
Qed.

Lemma dd_get_nonempty_key {V} (k : value) (d : defaultdict V) :
  dd_get k d <> [] -> In k (dd_keys d).
Proof.
  unfold dd_keys. induction d as [|[k' l] rest IH]; simpl.
  - congruence.
  - destruct (value_eqb_spec k k') as [->|]; [now left | right; now apply IH].
Qed.

Lemma check_phase_blocks_groups (bam : AlignmentFile) (chrom : string) blocks b :
  check_phase_blocks bam chrom = Ok blocks -> In b blocks ->
  group_labels (fetch bam chrom) (id b) <> [] /\
  np_amin (group_coordinates (fetch bam chrom) (id b)) = Ok (start b) /\
  np_amax (group_coordinates (fetch bam chrom) (id b)) = Ok (end_ b).
Proof.
  intros H Hb. apply check_phase_blocks_inv in H.
  destruct H as (pd & cd & bs & Hc & Hm & ->). apply sorted_In in Hb.
  destruct (mapM_In _ _ _ _ Hm Hb) as (k & Hk & Hmk).
  destruct (make_block_inv _ _ _ _ Hmk) as (<- & Hlo & Hhi).
  destruct (collect_tags_spec _ _ _ _ _ Hc eq_refl (Forall_nil _) (Forall_nil _))
    as (_ & Hpd & _ & Hget).
  pose proof (collect_tags_coordinates _ _ _ _ _ Hc (id b)) as Hco. simpl in Hco, Hget.
  rewrite <- Hget, <- Hco. repeat split; try assumption.
  now apply dd_get_key_nonempty.
Qed.

(** X3.  The detector emits one block per phase set: no two blocks have the
    same identifier, and the identifiers are exactly the phase-set tags of
    the reads of the chromosome that carry a haplotype tag. *)
Theorem one_block_per_phase_set (bam : AlignmentFile) (chrom : string) blocks :
  check_phase_blocks bam chrom = Ok blocks ->
  NoDup (map id blocks) /\
  forall ps, In ps (map id blocks) <->
             exists r, In r (fetch bam chrom) /\ in_phase_set r ps.
Proof.
  intros H. destruct (check_phase_blocks_inv _ _ _ H) as (pd & cd & bs & Hc & Hm & ->).
  assert (Hids : map id bs = dd_keys pd).
  { apply (mapM_map _ _ _ _ (fun k b Hb => proj1 (make_block_inv _ _ _ _ Hb)) Hm). }
  assert (Hperm : Permutation (map id (sorted start bs)) (dd_keys pd)).
  { rewrite <- Hids. apply Permutation_map, sorted_perm. }
  destruct (collect_tags_spec _ _ _ _ _ Hc eq_refl (Forall_nil _) (Forall_nil _))
    as (_ & Hpd & _ & Hget). simpl in Hget.
  split.
  - apply (Permutation_NoDup (Permutation_sym Hperm)).
    apply (collect_tags_keys _ _ _ _ _ Hc). constructor.
  - intros ps. rewrite <- group_labels_nonempty, <- Hget. split.
    + intros Hin. apply dd_get_key_nonempty; [assumption|].
      now apply (Permutation_in _ Hperm).
    + intros Hne. apply (Permutation_in _ (Permutation_sym Hperm)).
      now apply dd_get_nonempty_key.
Qed.

Lemma one_block_per_phase_set_witness :
  NoDup (map id [mkPhaseBlock (VInt 100) 100 200 [VInt 1] "monophasic";
                 mkPhaseBlock (VInt 300) 300 400 [VInt 2] "monophasic"]) /\
  forall ps, In ps (map id [mkPhaseBlock (VInt 100) 100 200 [VInt 1] "monophasic";
                            mkPhaseBlock (VInt 300) 300 400 [VInt 2] "monophasic"]) <->
             exists r, In r (fetch bam_apart "chr1") /\ in_phase_set r ps.
Proof. apply (one_block_per_phase_set bam_apart "chr1"). reflexivity. Defined.

(** X4.  A block spans its phase set tightly: every read of the phase set
    lies between the block's start and end, and both the start and the end
    are coordinates of reads of that phase set. *)
Theorem block_spans_its_reads (bam : AlignmentFile) (chrom : string) blocks b :
  check_phase_blocks bam chrom = Ok blocks -> In b blocks ->
  (forall r, In r (fetch bam chrom) -> in_phase_set r (id b) ->
             start b <= reference_start r <= end_ b /\
             start b <= reference_end r <= end_ b) /\
  (exists r, In r (fetch bam chrom) /\ in_phase_set r (id b) /\
             (start b = reference_start r \/ start b = reference_end r)) /\
  (exists r, In r (fetch bam chrom) /\ in_phase_set r (id b) /\
             (end_ b = reference_start r \/ end_ b = reference_end r)).
Proof.
  intros H Hb. destruct (check_phase_blocks_groups _ _ _ _ H Hb) as (_ & Hlo & Hhi).
  apply np_amin_spec in Hlo. apply py_max_spec in Hhi.
  destruct Hlo as (Hlo_in & Hlo_all), Hhi as (Hhi_in & Hhi_all).
  rewrite Forall_forall in Hlo_all, Hhi_all. repeat split.
  - apply Hlo_all. now apply group_coordinates_In.
  - apply Hhi_all. now apply group_coordinates_In.
  - apply Hlo_all. now apply group_coordinates_In.
  - apply Hhi_all. now apply group_coordinates_In.
  - now apply group_coordinates_from.
  - now apply group_coordinates_from.
Qed.

Lemma block_spans_its_reads_witness :
  (forall r, In r (fetch bam_apart "chr1") -> in_phase_set r (VInt 100) ->
             100 <= reference_start r <= 200 /\ 100 <= reference_end r <= 200) /\
  (exists r, In r (fetch bam_apart "chr1") /\ in_phase_set r (VInt 100) /\
             (100 = reference_start r \/ 100 = reference_end r)) /\
  (exists r, In r (fetch bam_apart "chr1") /\ in_phase_set r (VInt 100) /\
             (200 = reference_start r \/ 200 = reference_end r)).
Proof.
  apply (block_spans_its_reads bam_apart "chr1"
           [mkPhaseBlock (VInt 100) 100 200 [VInt 1] "monophasic";
            mkPhaseBlock (VInt 300) 300 400 [VInt 2] "monophasic"]
           (mkPhaseBlock (VInt 100) 100 200 [VInt 1] "monophasic")).
  - reflexivity.
  - now left.
Defined.

(** Witnesses for the two lemmas on the type of the haplotype tags. *)
Lemma integer_tags_never_biphasic_witness :
  Forall (fun b => status b = "monophasic")
         [mkPhaseBlock (VInt 100) 100 200 [VInt 1] "monophasic"].
Proof.
  apply (integer_tags_never_biphasic bam_both_int "chr1").
  - intros r v [<-|[<-|[]]]; simpl; intros [= <-]; reflexivity.
  - reflexivity.
Defined.

Lemma string_tags_status_witness :
  exists blocks,
    check_phase_blocks bam_both_str "chr1" = Ok blocks /\
    Forall (fun b =>
              let g := group_labels (fetch bam_both_str "chr1") (id b) in
              (status b = "biphasic" <->
               py_in (VStr "1") g = true /\ py_in (VStr "2") g = true) /\
              (status b = "monophasic" <->
               xorb (py_in (VStr "1") g) (py_in (VStr "2") g) = true) /\
              (status b = "monophasic" ->
               exists L, phase b = [L] /\ py_in L g = true) /\
              phase b <> [])
           blocks.
Proof.
  apply (string_tags_status bam_both_str "chr1").
  - intros r [<-|[<-|[]]]; reflexivity.
  - intros r v [<-|[<-|[]]]; simpl; intros [= <-]; auto.
Defined.

(** ** The Interval Complementer on any input *)

Lemma get_unphased_blocks_unfold (phase_blocks : list PhaseBlock) (len : Z) :
  exists ms,
    get_unphased_blocks phase_blocks len
    = Ok (sorted start
            (map unphased_of
               (filter proper
                  (combine (0 :: ms)
                     (sorted (fun z => z) (map start phase_blocks) ++ [len]))))) /\
    Forall2 (fun s m =>
               py_max (map end_ (filter (fun block => start block =? s) phase_blocks))
               = Ok m)
            (sorted (fun z => z) (map start phase_blocks)) ms.
Proof.
  destruct (walk_starts_spec phase_blocks
              (sorted (fun z => z) (map start phase_blocks)) [0] [])
    as (ms & Hw & HF).
  - intros s Hs. apply sorted_In in Hs. apply in_map_iff in Hs.
    destruct Hs as (b & Hb & Hin). now exists b.
  - exists ms. split; [|assumption].
    unfold get_unphased_blocks. rewrite Hw. reflexivity.
Qed.

(** X5.  On every list of phase blocks and every chromosome length the
    Interval Complementer returns; its intervals come in ascending order of
    start, each carries the identifier 'NOID', the single label 'u' and the
    status 'unphased', and there is at most one more of them than there are
    phase blocks. *)
Theorem unphased_blocks_shape (phase_blocks : list PhaseBlock) (len : Z) :
  exists out,
    get_unphased_blocks phase_blocks len = Ok out /\
    Sorted (fun a b => start a <= start b) out /\
    Forall (fun u => id u = VStr "NOID" /\ phase u = [VStr "u"]
                     /\ status u = "unphased") out /\
    (List.length out <= List.length phase_blocks + 1)%nat.
Proof.
  destruct (get_unphased_blocks_unfold phase_blocks len) as (ms & Hout & HF).
  eexists. split; [exact Hout|]. split; [apply sorted_ascending|]. split.
  - apply Forall_forall. intros u Hu. apply sorted_In in Hu.
    apply in_map_iff in Hu. destruct Hu as (p & <- & _). repeat split.
  - rewrite (Permutation_length (sorted_perm start _)), length_map.
    eapply Nat.le_trans; [apply filter_length_le|].
    rewrite length_combine. eapply Nat.le_trans; [apply Nat.le_min_r|].
    rewrite length_app.
    rewrite (Permutation_length (sorted_perm (fun z => z) _)), length_map.
    simpl. lia.
Qed.

(** X6.  The Interval Complementer invents no coordinate: every interval it
    emits starts at 0 or where a phase block ends, and ends where a phase
    block starts or at the chromosome length. *)
Theorem unphased_boundaries_come_from_blocks (phase_blocks : list PhaseBlock) (len : Z) :
  exists out,
    get_unphased_blocks phase_blocks len = Ok out /\
    Forall (fun u =>
              (start u = 0 \/ exists b, In b phase_blocks /\ start u = end_ b) /\
              (end_ u = len \/ exists b, In b phase_blocks /\ end_ u = start b))
           out.
Proof.
  destruct (get_unphased_blocks_unfold phase_blocks len) as (ms & Hout & HF).
  eexists. split; [exact Hout|].
  apply Forall_forall. intros u Hu. apply sorted_In in Hu.
  apply in_map_iff in Hu. destruct Hu as ([s e] & <- & Hp).
  apply filter_In in Hp. destruct Hp as (Hp & _). simpl. split.
  - apply in_combine_l in Hp. destruct Hp as [<-|Hs]; [now left | right].
    assert (Hms : Forall (fun m => exists b, In b phase_blocks /\ m = end_ b) ms).
    { clear - HF. induction HF as [|s' m l ms' Hm _ IH]; constructor; [|exact IH].
      apply py_max_spec in Hm. destruct Hm as (Hm & _).
      apply in_map_iff in Hm. destruct Hm as (b & <- & Hb).
      apply filter_In in Hb. exists b. now split. }
    rewrite Forall_forall in Hms. now apply Hms.
  - apply in_combine_r in Hp. apply in_app_or in Hp.
    destruct Hp as [He|[<-|[]]]; [right | now left].
    apply sorted_In in He. apply in_map_iff in He.
    destruct He as (b & <- & Hb). now exists b.
Qed.

Lemma collect_tags_untagged (reads : list read) pd cd :
  (forall r, In r reads -> has_tag r "HP" = false) ->
  collect_tags reads pd cd = Ok (pd, cd).
Proof.
  induction reads as [|r rest IH]; simpl; intros H.
  - reflexivity.
  - rewrite (H r (or_introl eq_refl)). apply IH. intros r' Hr'. apply H. now right.
Qed.

(** X7.  A chromosome none of whose reads carries a haplotype tag has no
    phase block, and, its length not being 0, its complement is the single
    unphased interval from 0 to the chromosome length. *)
Theorem untagged_chromosome_is_one_interval
    (bam : AlignmentFile) (chrom : string) (len : Z) :
  (forall r, In r (fetch bam chrom) -> has_tag r "HP" = false) ->
  get_reference_length (references bam) chrom = Ok len ->
  len <> 0 ->
  intervals_of bam chrom = Ok ([], [whole_chromosome len]).
Proof.
  intros Hno Hlen Hne. unfold intervals_of, check_phase_blocks.
  rewrite (collect_tags_untagged _ [] [] Hno). simpl. rewrite Hlen. simpl.
  unfold get_unphased_blocks. simpl.
  destruct len; [congruence | reflexivity | reflexivity].
Qed.

Lemma untagged_chromosome_is_one_interval_witness :
  intervals_of bam_untagged "chr1" = Ok ([], [whole_chromosome 500]).
Proof.
  apply (untagged_chromosome_is_one_interval bam_untagged "chr1" 500).
  - intros r [<-|[]]. reflexivity.
  - reflexivity.
  - discriminate.
Defined.

(** ** The order of the phase blocks does not matter *)

Lemma Permutation_filter_same {A} (f : A -> bool) (l l' : list A) :
  Permutation l l' -> Permutation (filter f l) (filter f l').
Proof.
  induction 1 as [|x l l' _ IH|x y l|l l' l'' _ IH1 _ IH2]; simpl.
  - constructor.
  - destruct (f x); [now constructor | exact IH].
  - destruct (f x), (f y); try apply Permutation_refl. apply perm_swap.
  - eapply perm_trans; eassumption.
Qed.

Lemma ascending_unique (l l' : list Z) :
  Sorted (fun a b => a <= b) l -> Sorted (fun a b => a <= b) l' ->
  Permutation l l' -> l = l'.
Proof.
  intros Hl Hl'.
  assert (Htrans : Relations_1.Transitive (fun a b : Z => a <= b))
    by (intros a b c; lia).
  apply (Sorted_StronglySorted Htrans) in Hl, Hl'.
  revert l' Hl'. induction Hl as [|x xs Hxs IH Hx]; intros l' Hl' Hperm.
  - now apply Permutation_nil in Hperm.
  - destruct l' as [|y ys].
    + apply Permutation_sym, Permutation_nil in Hperm. discriminate.
    + apply StronglySorted_inv in Hl'. destruct Hl' as (Hys & Hy).
      rewrite Forall_forall in Hx, Hy.
      assert (Hxy : x = y).
      { assert (Hx_in : In x (y :: ys))
          by (apply (Permutation_in _ Hperm); now left).
        assert (Hy_in : In y (x :: xs))
          by (apply (Permutation_in _ (Permutation_sym Hperm)); now left).
        destruct Hx_in as [E|Hx_in]; [now subst|].
        destruct Hy_in as [E|Hy_in]; [now subst|].
        specialize (Hx _ Hy_in). specialize (Hy _ Hx_in). lia. }
      subst y. f_equal. apply IH; [assumption|].
      now apply Permutation_cons_inv in Hperm.
Qed.

Lemma sorted_of_permutation (l l' : list Z) :
  Permutation l l' -> sorted (fun z => z) l = sorted (fun z => z) l'.
Proof.
  intros H. apply ascending_unique.
  - apply (sorted_ascending (fun z => z)).
  - apply (sorted_ascending (fun z => z)).
  - eapply perm_trans; [apply sorted_perm|].
    eapply perm_trans; [exact H | apply Permutation_sym, sorted_perm].
Qed.

Lemma py_max_of_permutation (l l' : list Z) :
  Permutation l l' -> py_max l = py_max l'.
Proof.
  intros H. destruct l as [|a rest].
  - apply Permutation_nil in H. now subst.
  - destruct l' as [|a' rest'].
    + apply Permutation_sym, Permutation_nil in H. discriminate.
    + destruct (py_max (a :: rest)) as [m|] eqn:Hm; [|discriminate].
      destruct (py_max (a' :: rest')) as [m'|] eqn:Hm'; [|discriminate].
      apply py_max_spec in Hm, Hm'.
      destruct Hm as (Hin & Hall), Hm' as (Hin' & Hall').
      rewrite Forall_forall in Hall, Hall'.
      apply (Permutation_in _ H) in Hin.
      apply (Permutation_in _ (Permutation_sym H)) in Hin'.
      specialize (Hall _ Hin'). specialize (Hall' _ Hin). f_equal. lia.
Qed.

Lemma walk_starts_of_permutation (bs bs' : list PhaseBlock) (l S E : list Z) :
  Permutation bs bs' -> walk_starts bs l S E = walk_starts bs' l S E.
Proof.
  intros H. revert S E. induction l as [|s rest IH]; intros S E; simpl.
  - reflexivity.
  - rewrite (py_max_of_permutation
               (map end_ (filter (fun block => start block =? s) bs))
               (map end_ (filter (fun block => start block =? s) bs'))).
    + destruct (py_max _); simpl; [apply IH | reflexivity].
    + apply Permutation_map. now apply Permutation_filter_same.
Qed.

(** X8.  The complement depends on which phase blocks there are, not on the
    order in which they are listed: two lists that are rearrangements of each
    other give the same unphased intervals, in the same order. *)
Theorem unphased_blocks_ignore_order (bs bs' : list PhaseBlock) (len : Z) :
  Permutation bs bs' ->
  get_unphased_blocks bs len = get_unphased_blocks bs' len.
Proof.
  intros H. unfold get_unphased_blocks.
  rewrite (sorted_of_permutation (map start bs) (map start bs'))
    by now apply Permutation_map.
  now rewrite (walk_starts_of_permutation bs bs').
Qed.

Lemma unphased_blocks_ignore_order_witness :
  get_unphased_blocks
    [mkPhaseBlock (VInt 300) 300 400 [VInt 2] "monophasic";
     mkPhaseBlock (VInt 100) 100 200 [VInt 1] "monophasic"] 500
  = get_unphased_blocks
      [mkPhaseBlock (VInt 100) 100 200 [VInt 1] "monophasic";
       mkPhaseBlock (VInt 300) 300 400 [VInt 2] "monophasic"] 500.
Proof. apply unphased_blocks_ignore_order. apply perm_swap. Defined.

(** ** What a computation does to the world, whether it returns or raises *)

Section Keeps.
Variable R : world -> world -> Prop.
Hypothesis R_refl : forall w, R w w.
Hypothesis R_trans : forall w1 w2 w3, R w1 w2 -> R w2 w3 -> R w1 w3.

Lemma keeps_ret {A} (a : A) : keeps R (ret a).
Proof. intros w. apply R_refl. Qed.

Lemma keeps_raise {A} (e : exn) : keeps R (@raise A e).
Proof. intros w. apply R_refl. Qed.

Lemma keeps_lift {A} (r : result A) : keeps R (lift r).
Proof. intros w. apply R_refl. Qed.

Lemma keeps_bind_returned {A B} (m : M A) (k : A -> M B) :
  keeps R m ->
  (forall a w w1, m w = (Ok a, w1) -> R w1 (snd (k a w1))) ->
  keeps R (bind m k).
Proof.
  intros Hm Hk w. unfold bind. specialize (Hm w).
  destruct (m w) as [[a|e] w1] eqn:E; simpl in *.
  - eapply R_trans; [exact Hm | now apply (Hk a w)].
  - exact Hm.
Qed.

Lemma keeps_bind {A B} (m : M A) (k : A -> M B) :
  keeps R m -> (forall a, keeps R (k a)) -> keeps R (bind m k).
Proof.
  intros Hm Hk. apply keeps_bind_returned; [assumption|].
  intros a w w1 _. apply Hk.
Qed.

Lemma keeps_foldM_inv {A S} (I : S -> Prop) (body : A -> S -> M S)
    (l : list A) (acc : S) :
  I acc ->
  (forall x a, I a -> keeps R (body x a)) ->
  (forall x a w a' w', I a -> body x a w = (Ok a', w') -> I a') ->
  keeps R (foldM body l acc).
Proof.
  intros Hacc Hkeeps Hinv. revert acc Hacc.
  induction l as [|x rest IH]; intros acc Hacc; simpl.
  - apply keeps_ret.
  - apply keeps_bind_returned; [now apply Hkeeps|].
    intros a' w w1 Hb. apply IH. now apply (Hinv x acc w a' w1).
Qed.

Lemma keeps_foldM {A S} (body : A -> S -> M S) (l : list A) (acc : S) :
  (forall x a, keeps R (body x a)) -> keeps R (foldM body l acc).
Proof.
  intros H. apply (keeps_foldM_inv (fun _ => True)); auto.
Qed.
End Keeps.

Lemma keeps_weaken {A} (R R' : world -> world -> Prop) (m : M A) :
  (forall w w', R w w' -> R' w w') -> keeps R m -> keeps R' m.
Proof. intros H Hm w. apply H, Hm. Qed.

Lemma quiet_refl (w : world) : quiet w w.
Proof. reflexivity. Qed.

Lemma quiet_trans (w1 w2 w3 : world) : quiet w1 w2 -> quiet w2 w3 -> quiet w1 w3.
Proof. unfold quiet. congruence. Qed.

Lemma only_mosdepth_refl (w : world) : only_mosdepth w w.
Proof. exists []. split; [now rewrite app_nil_r | constructor]. Qed.

Lemma only_mosdepth_trans (w1 w2 w3 : world) :
  only_mosdepth w1 w2 -> only_mosdepth w2 w3 -> only_mosdepth w1 w3.
Proof.
  intros (l1 & E1 & H1) (l2 & E2 & H2). exists (l1 ++ l2). split.
  - now rewrite E2, E1, app_assoc.
  - apply Forall_app. now split.
Qed.

Lemma quiet_only_mosdepth (w w' : world) : quiet w w' -> only_mosdepth w w'.
Proof.
  unfold quiet. intros E. exists []. split; [now rewrite app_nil_r | constructor].
Qed.

Lemma mkstemp_quiet (prefix suffix : string) : keeps quiet (mkstemp prefix suffix).
Proof. intros w. reflexivity. Qed.

Lemma mkdtemp_quiet (prefix : string) : keeps quiet (mkdtemp prefix).
Proof. intros w. reflexivity. Qed.

Lemma write_file_quiet (p : string) (f : file) : keeps quiet (write_file p f).
Proof. intros w. reflexivity. Qed.

Lemma os_remove_quiet (p : string) : keeps quiet (os_remove p).
Proof. intros w. unfold os_remove. now destruct (lookup_file p (files w)). Qed.

(** ** sniffles *)

(** X9.  No call of [sniffles] returns, and none starts the variant caller:
    whatever the arguments and the environment, the call raises and the list
    of programs started is as it was.  A call with a number of arguments other
    than three, as the one in [main], raises [TypeError]. *)
Theorem sniffles_always_raises (t : tools) (args : list value) (w : world) :
  (exists e, fst (sniffles t args w) = Raise e) /\
  invocations (snd (sniffles t args w)) = invocations w /\
  (List.length args <> 3%nat -> fst (sniffles t args w) = Raise TypeError).
Proof.
  destruct args as [|a [|b [|c [|d rest]]]].
  - split; [now exists TypeError | split; reflexivity].
  - split; [now exists TypeError | split; reflexivity].
  - split; [now exists TypeError | split; reflexivity].
  - destruct a as [|z|prefix].
    + split; [now exists NameError | split; [reflexivity | simpl; congruence]].
    + split; [now exists TypeError | split; reflexivity].
    + unfold sniffles, bind, mkstemp_prefixed.
      destruct (creatable t _ _).
      * split; [now exists NameError | split; [reflexivity | simpl; congruence]].
      * split; [now exists OSError | split; [reflexivity | simpl; congruence]].
  - split; [now exists TypeError | split; reflexivity].
Qed.

(** ** make_bams and its read-sets *)

Lemma lookup_file_not_written (bam : AlignmentFile) (chrom : string) (block : PhaseBlock)
    (phases : list value) (n : nat) (p : string) (fs : list (string * file)) :
  ~ In p (map tmp_bam (seq n (List.length phases))) ->
  lookup_file p (bam_entries bam chrom block n phases ++ fs) = lookup_file p fs.
Proof.
  revert n fs. induction phases as [|L rest IH]; intros n fs Hp; simpl.
  - reflexivity.
  - simpl in Hp. rewrite <- app_assoc. rewrite IH by tauto.
    cbn [app lookup_file].
    destruct (String.eqb_spec p (tmp_bam n)) as [->|_]; [tauto | reflexivity].
Qed.

Lemma fetch_region_valid (bam : AlignmentFile) (chrom : string) (s e : Z) :
  valid_region s e = true -> exists fetched, fetch_region bam chrom s e = Ok fetched.
Proof.
  intros H. unfold fetch_region. rewrite H.
  destruct (s =? e); eexists; reflexivity.
Qed.

Lemma fetch_region_refused (bam : AlignmentFile) (chrom : string) (s e : Z) :
  valid_region s e = false -> fetch_region bam chrom s e = Raise ValueError.
Proof. intros H. unfold fetch_region. now rewrite H. Qed.

(** X10.  On an interval whose region the query accepts, [make_bams] returns;
    it starts no program, draws a different name for every label, and leaves
    every file alone whose name it did not draw. *)
Theorem make_bams_touches_only_its_files
    (bam : AlignmentFile) (chrom : string) (block : PhaseBlock) (w : world) :
  valid_region (start block) (end_ block) = true ->
  exists paths w',
    make_bams bam chrom block w = (Ok paths, w') /\
    invocations w' = invocations w /\
    NoDup paths /\
    forall p, ~ In p paths -> lookup_file p (files w') = lookup_file p (files w).
Proof.
  intros Hvalid.
  destruct (fetch_region_valid bam chrom _ _ Hvalid) as (fetched & Hf).
  unfold make_bams. rewrite (make_bams_loop _ _ _ _ _ _ _ Hf). do 2 eexists.
  split; [reflexivity|]. split; [reflexivity|]. split.
  - simpl. generalize (next_tmp w). generalize (List.length (phase block)).
    intros len. induction len as [|len IH]; intros n; simpl.
    + constructor.
    + constructor; [|apply IH].
      intros Hin. apply in_map_iff in Hin. destruct Hin as (m & E & Hm).
      apply tmp_bam_inj in E. apply in_seq in Hm. lia.
  - intros p Hp. cbn [files]. now apply lookup_file_not_written.
Qed.

(** The interval [100, 200) with two labels, in a world that holds a file
    already. *)
Lemma make_bams_touches_only_its_files_witness :
  exists paths w',
    make_bams bam_mixed "chr1"
      (mkPhaseBlock (VInt 100) 100 200 [VInt 1; VInt 2] "biphasic")
      (mkWorld 0 [("keep.txt", EmptyFile)] [["ls"]])
    = (Ok paths, w') /\
    invocations w' = [["ls"]] /\
    NoDup paths /\
    forall p, ~ In p paths ->
              lookup_file p (files w') = lookup_file p [("keep.txt", EmptyFile)].
Proof.
  apply (make_bams_touches_only_its_files bam_mixed "chr1"
           (mkPhaseBlock (VInt 100) 100 200 [VInt 1; VInt 2] "biphasic")
           (mkWorld 0 [("keep.txt", EmptyFile)] [["ls"]])).
  reflexivity.
Defined.

(** X23.  On an interval whose region the query refuses, such as one that
    runs backward, and that has a label, [make_bams] raises [ValueError] at
    the first label: no program is started, no path is returned, and the
    temporary file drawn for that label stays behind, holding no read; every
    other file is as it was. *)
Theorem make_bams_raises_on_a_refused_region
    (bam : AlignmentFile) (chrom : string) (block : PhaseBlock) (w : world) :
  valid_region (start block) (end_ block) = false ->
  phase block <> [] ->
  fst (make_bams bam chrom block w) = Raise ValueError /\
  invocations (snd (make_bams bam chrom block w)) = invocations w /\
  lookup_file (tmp_bam (next_tmp w)) (files (snd (make_bams bam chrom block w)))
  = Some (BamFile []) /\
  forall p, p <> tmp_bam (next_tmp w) ->
            lookup_file p (files (snd (make_bams bam chrom block w)))
            = lookup_file p (files w).
Proof.
  intros Hrefused Hphase.
  assert (Hrun :
    make_bams bam chrom block w
    = (Raise ValueError,
       mkWorld (S (next_tmp w))
         ((tmp_bam (next_tmp w), BamFile []) :: (tmp_bam (next_tmp w), EmptyFile)
          :: files w)
         (invocations w))).
  { unfold make_bams. destruct (phase block) as [|L rest]; [congruence|].
    cbn [foldM]. unfold bind, make_bam, mkstemp, write_file, lift. cbv beta iota.
    now rewrite (fetch_region_refused _ _ _ _ Hrefused). }
  rewrite Hrun. cbn [fst snd files invocations].
  split; [reflexivity | split; [reflexivity | split]].
  - cbn [lookup_file]. now rewrite String.eqb_refl.
  - intros p Hp. cbn [lookup_file].
    destruct (String.eqb_spec p (tmp_bam (next_tmp w))); [congruence | reflexivity].
Qed.

(** The interval from 300 back to 200 that the complement of two overlapping
    phase blocks holds. *)
Lemma make_bams_raises_on_a_refused_region_witness :
  fst (make_bams bam_overlap "chr1" (unphased_of (300, 200)) (mkWorld 0 [] []))
  = Raise ValueError /\
  invocations (snd (make_bams bam_overlap "chr1" (unphased_of (300, 200))
                      (mkWorld 0 [] []))) = [] /\
  lookup_file (tmp_bam 0)
    (files (snd (make_bams bam_overlap "chr1" (unphased_of (300, 200))
                   (mkWorld 0 [] []))))
  = Some (BamFile []) /\
  forall p, p <> tmp_bam 0 ->
            lookup_file p
              (files (snd (make_bams bam_overlap "chr1" (unphased_of (300, 200))
                             (mkWorld 0 [] []))))
            = lookup_file p [].
Proof.
  apply (make_bams_raises_on_a_refused_region bam_overlap "chr1"
           (unphased_of (300, 200)) (mkWorld 0 [] [])).
  - reflexivity.
  - discriminate.
Defined.

(** X11.  The read-sets of one interval never share a read between two
    different haplotype labels, and every read of a haplotype read-set is also
    in the read-set the unphased label gives for the same span. *)
Theorem haplotype_read_sets_are_disjoint
    (bam : AlignmentFile) (chrom : string) (block : PhaseBlock)
    (L1 L2 : value) (r : read) :
  L1 <> L2 -> L1 <> VStr "u" -> L2 <> VStr "u" ->
  In r (read_set bam chrom block L1) ->
  ~ In r (read_set bam chrom block L2) /\
  In r (read_set bam chrom block (VStr "u")).
Proof.
  intros Hne H1 H2 Hin. unfold read_set in *.
  destruct (fetch_region bam chrom (start block) (end_ block)) as [fetched|];
    [|contradiction].
  unfold written_for in *.
  destruct (value_eqb_spec L1 (VStr "u")); [congruence|].
  destruct (value_eqb_spec L2 (VStr "u")); [congruence|].
  apply filter_In in Hin. destruct Hin as (Hr & Hc).
  apply andb_true_iff in Hc. destruct Hc as (_ & Ht). split.
  - intros Hin2. apply filter_In in Hin2. destruct Hin2 as (_ & Hc).
    apply andb_true_iff in Hc. destruct Hc as (_ & Ht2).
    destruct (get_tag r "HP") as [hp|]; [|discriminate].
    apply value_eqb_eq in Ht, Ht2. congruence.
  - simpl. exact Hr.
Qed.

Lemma haplotype_read_sets_are_disjoint_witness :
  ~ In read_h1 (read_set bam_mixed "chr1"
                  (mkPhaseBlock (VInt 100) 100 200 [VInt 1; VInt 2] "biphasic") (VInt 2)) /\
  In read_h1 (read_set bam_mixed "chr1"
                (mkPhaseBlock (VInt 100) 100 200 [VInt 1; VInt 2] "biphasic") (VStr "u")).
Proof.
  apply (haplotype_read_sets_are_disjoint bam_mixed "chr1" _ (VInt 1) (VInt 2) read_h1).
  - discriminate.
  - discriminate.
  - discriminate.
  - simpl. now left.
Defined.

(** ** get_coverage *)

Lemma lookup_file_removed (p s : string) (fs : list (string * file)) :
  lookup_file p (filter (fun e => negb (String.eqb s (fst e))) fs)
  = if String.eqb p s then None else lookup_file p fs.
Proof.
  induction fs as [|[q f] rest IH]; simpl.
  - now destruct (String.eqb p s).
  - destruct (String.eqb_spec s q) as [<-|Hsq]; simpl.
    + rewrite IH. now destruct (String.eqb p s).
    + rewrite IH. destruct (String.eqb_spec p s) as [->|Hps].
      * destruct (String.eqb_spec s q); [congruence | reflexivity].
      * reflexivity.
Qed.

Lemma get_coverage_run (t : tools) (tmpdir tmpbam chrom : string)
    (block : PhaseBlock) (w : world) :
  get_coverage t tmpdir tmpbam chrom block w
  = let fs := files_after_mosdepth t tmpdir tmpbam chrom block w in
    let argv := mosdepth_argv (tmp_bed w) tmpdir tmpbam chrom block in
    match np_loadtxt t (depth_report tmpdir chrom block) fs with
    | Raise e => (Raise e, mkWorld (S (next_tmp w)) fs (invocations w ++ [argv]))
    | Ok cov =>
        match lookup_file (tmp_bed w) fs with
        | None => (Raise FileNotFoundError,
                   mkWorld (S (next_tmp w)) fs (invocations w ++ [argv]))
        | Some _ =>
            (Ok cov,
             mkWorld (S (next_tmp w))
               (filter (fun e => negb (String.eqb (tmp_bed w) (fst e))) fs)
               (invocations w ++ [argv]))
        end
    end.
Proof.
  unfold get_coverage, bind, mkstemp, write_file, subprocess_call, os_remove, ret,
    started, files_after_mosdepth, mosdepth_argv, depth_report, tmp_bed.
  cbn [next_tmp files invocations fst snd].
  destruct (np_loadtxt t _ _) as [cov|e]; [|reflexivity].
  cbn [next_tmp files invocations].
  destruct (lookup_file _ _); reflexivity.
Qed.

(** X12.  Every call of [get_coverage] starts mosdepth exactly once, and
    nothing else, whether the call returns or raises. *)
Theorem get_coverage_starts_mosdepth_once (t : tools) (tmpdir tmpbam chrom : string)
    (block : PhaseBlock) (w : world) :
  invocations (snd (get_coverage t tmpdir tmpbam chrom block w))
  = invocations w ++ [mosdepth_argv (tmp_bed w) tmpdir tmpbam chrom block].
Proof.
  rewrite get_coverage_run. cbv zeta.
  destruct (np_loadtxt t _ _); [destruct (lookup_file _ _)|]; reflexivity.
Qed.

(** X13.  When [get_coverage] returns, the depth is what the report held and
    no file is left under the name of its bed file. *)
Theorem get_coverage_removes_its_bed_file (t : tools) (tmpdir tmpbam chrom : string)
    (block : PhaseBlock) (w w' : world) (cov : Q) :
  get_coverage t tmpdir tmpbam chrom block w = (Ok cov, w') ->
  np_loadtxt t (depth_report tmpdir chrom block)
    (files_after_mosdepth t tmpdir tmpbam chrom block w) = Ok cov /\
  lookup_file (tmp_bed w) (files w') = None.
Proof.
  rewrite get_coverage_run. cbv zeta.
  destruct (np_loadtxt t _ _) as [c|e]; [|discriminate].
  destruct (lookup_file _ _); [|discriminate].
  intros H. apply pair_equal_spec in H. destruct H as (Hc & <-).
  split; [exact Hc|]. cbn [files].
  now rewrite lookup_file_removed, String.eqb_refl.
Qed.

Lemma get_coverage_removes_its_bed_file_witness :
  np_loadtxt (quiet_tools (30 # 1)) (depth_report "/tmp/mosdepth" "chr1" block_100_200)
    (files_after_mosdepth (quiet_tools (30 # 1)) "/tmp/mosdepth" "/tmp/tmp.bam" "chr1"
       block_100_200 (world_with_bam "/tmp/tmp.bam")) = Ok (30 # 1) /\
  lookup_file (tmp_bed (world_with_bam "/tmp/tmp.bam"))
    (files (mkWorld 2 [("/tmp/tmp.bam", BamFile [])]
              [["mosdepth"; "-n"; "-x"; "-b"; "/tmp/tmpx.bed";
                "/tmp/mosdepth/chr1.100"; "/tmp/tmp.bam"]])) = None.
Proof.
  apply (get_coverage_removes_its_bed_file (quiet_tools (30 # 1))
           "/tmp/mosdepth" "/tmp/tmp.bam" "chr1" block_100_200
           (world_with_bam "/tmp/tmp.bam")).
  reflexivity.
Defined.

(** X14.  When the depth report cannot be read, [get_coverage] raises the
    reader's exception and removes nothing: the files are exactly as mosdepth
    left them, the bed file included if mosdepth left it. *)
Theorem get_coverage_keeps_bed_file_on_error (t : tools) (tmpdir tmpbam chrom : string)
    (block : PhaseBlock) (w : world) (e : exn) :
  np_loadtxt t (depth_report tmpdir chrom block)
    (files_after_mosdepth t tmpdir tmpbam chrom block w) = Raise e ->
  fst (get_coverage t tmpdir tmpbam chrom block w) = Raise e /\
  files (snd (get_coverage t tmpdir tmpbam chrom block w))
  = files_after_mosdepth t tmpdir tmpbam chrom block w.
Proof.
  intros H. rewrite get_coverage_run. cbv zeta. rewrite H. split; reflexivity.
Qed.

Lemma get_coverage_keeps_bed_file_on_error_witness :
  fst (get_coverage unreadable_report "/tmp/mosdepth" "/tmp/tmp.bam" "chr1"
         block_100_200 (world_with_bam "/tmp/tmp.bam")) = Raise FileNotFoundError /\
  files (snd (get_coverage unreadable_report "/tmp/mosdepth" "/tmp/tmp.bam" "chr1"
                block_100_200 (world_with_bam "/tmp/tmp.bam")))
  = files_after_mosdepth unreadable_report "/tmp/mosdepth" "/tmp/tmp.bam" "chr1"
      block_100_200 (world_with_bam "/tmp/tmp.bam").
Proof.
  apply (get_coverage_keeps_bed_file_on_error unreadable_report).
  reflexivity.
Defined.

(** ** concat_vcf on lists that are not empty *)

Lemma join_words_raises (vcfs : list value) :
  (exists v, In v vcfs /\ forall s, v <> VStr s) ->
  join_words vcfs = Raise TypeError.
Proof.
  induction vcfs as [|x rest IH]; intros (v & Hin & Hv).
  - contradiction.
  - destruct Hin as [->|Hin].
    + destruct v as [|z|s]; simpl; try reflexivity. now destruct (Hv s).
    + destruct x as [|z|s]; simpl; try reflexivity.
      rewrite IH; [reflexivity | now exists v].
Qed.

Lemma join_words_strings (words : list string) :
  join_words (map VStr words) = Ok words.
Proof. induction words as [|s rest IH]; simpl; [reflexivity | now rewrite IH]. Qed.

Lemma join_words_inv (vcfs : list value) (words : list string) :
  join_words vcfs = Ok words -> vcfs = map VStr words.
Proof.
  revert words. induction vcfs as [|x rest IH]; simpl; intros words H.
  - now injection H as <-.
  - destruct x as [|z|s]; try discriminate.
    destruct (join_words rest) as [ws|]; simpl in H; [|discriminate].
    injection H as <-. simpl. f_equal. now apply IH.
Qed.

(** X15.  A list with an item that is not a string, such as the [None] that
    [concat_vcf] itself returns for an empty list, makes [concat_vcf] raise
    [TypeError] before anything is done: no program is started and no file is
    removed. *)
Theorem concat_vcf_rejects_non_strings
    (t : tools) (default_output : string) (vcfs : list value) (output : option value)
    (w : world) :
  (exists v, In v vcfs /\ forall s, v <> VStr s) ->
  concat_vcf t default_output vcfs output w = (Raise TypeError, w).
Proof.
  intros H. unfold concat_vcf. destruct vcfs as [|x rest].
  - destruct H as (v & [] & _).
  - unfold bind, lift. now rewrite (join_words_raises _ H).
Qed.

Lemma concat_vcf_rejects_non_strings_witness :
  concat_vcf (quiet_tools 0) "/tmp/tmp.vcf" [VStr "a.vcf"; VNone] None
    (mkWorld 1 [("a.vcf", EmptyFile)] [])
  = (Raise TypeError, mkWorld 1 [("a.vcf", EmptyFile)] []).
Proof.
  apply concat_vcf_rejects_non_strings. exists VNone. split.
  - right. now left.
  - discriminate.
Defined.

(** X16.  When the concatenation tool exits with a non-zero status,
    [concat_vcf] raises [CalledProcessError] and removes none of its inputs:
    the files are as the tool left them. *)
Theorem concat_vcf_keeps_inputs_on_tool_failure
    (t : tools) (default_output : string) (words : list string) (output : option value)
    (w : world) :
  words <> [] ->
  tool_exit_ok t
    (bcftools_argv words
       (match output with Some v => v | None => VStr default_output end))
    (files w) = false ->
  concat_vcf t default_output (map VStr words) output w
  = (Raise CalledProcessError,
     mkWorld (next_tmp w)
       (tool_effect t
          (bcftools_argv words
             (match output with Some v => v | None => VStr default_output end))
          (files w))
       (invocations w
        ++ [bcftools_argv words
              (match output with Some v => v | None => VStr default_output end)])).
Proof.
  intros Hne Hexit. unfold concat_vcf.
  destruct words as [|s rest]; [congruence|].
  change (map VStr (s :: rest)) with (VStr s :: map VStr rest) at 1.
  cbv beta iota. unfold bind at 1. unfold lift.
  change (VStr s :: map VStr rest) with (map VStr (s :: rest)).
  rewrite join_words_strings. unfold bind at 1.
  unfold subprocess_check_output, started, bcftools_argv in *.
  cbn [next_tmp files invocations]. now rewrite Hexit.
Qed.

Lemma concat_vcf_keeps_inputs_on_tool_failure_witness :
  concat_vcf failing_tools "/tmp/tmp.vcf" (map VStr ["a.vcf"; "b.vcf"]) None
    (mkWorld 1 [("a.vcf", EmptyFile); ("b.vcf", EmptyFile)] [])
  = (Raise CalledProcessError,
     mkWorld 1
       (tool_effect failing_tools
          (bcftools_argv ["a.vcf"; "b.vcf"] (VStr "/tmp/tmp.vcf"))
          [("a.vcf", EmptyFile); ("b.vcf", EmptyFile)])
       ([] ++ [bcftools_argv ["a.vcf"; "b.vcf"] (VStr "/tmp/tmp.vcf")])).
Proof.
  apply (concat_vcf_keeps_inputs_on_tool_failure failing_tools "/tmp/tmp.vcf"
           ["a.vcf"; "b.vcf"] None
           (mkWorld 1 [("a.vcf", EmptyFile); ("b.vcf", EmptyFile)] [])).
  - discriminate.
  - reflexivity.
Defined.

Lemma remove_all_spec (l : list value) (w w' : world) :
  remove_all l w = (Ok tt, w') ->
  NoDup l /\
  (forall s, In (VStr s) l -> lookup_file s (files w') = None) /\
  (forall p, ~ In (VStr p) l -> lookup_file p (files w') = lookup_file p (files w)) /\
  (forall s, In (VStr s) l -> lookup_file s (files w) <> None) /\
  invocations w' = invocations w.
Proof.
  revert w. induction l as [|x rest IH]; intros w H.
  - simpl in H. injection H as <-. repeat split; try constructor; intros s [].
  - destruct x as [|z|s]; try discriminate. simpl in H.
    unfold bind, os_remove in H.
    destruct (lookup_file s (files w)) as [f|] eqn:Hs; [|discriminate].
    apply IH in H. cbn [files invocations] in H.
    destruct H as (Hnd & Hgone & Hframe & Hneed & Hinv).
    assert (Hfresh : ~ In (VStr s) rest).
    { intros Hin. apply (Hneed s Hin).
      now rewrite lookup_file_removed, String.eqb_refl. }
    repeat split.
    + now constructor.
    + intros s' [E|Hin]; [|now apply Hgone].
      injection E as <-. rewrite (Hframe s Hfresh).
      now rewrite lookup_file_removed, String.eqb_refl.
    + intros p Hp. rewrite Hframe by (intros Hin; apply Hp; now right).
      rewrite lookup_file_removed.
      destruct (String.eqb_spec p s) as [->|]; [|reflexivity].
      exfalso. apply Hp. now left.
    + intros s' [E|Hin].
      * injection E as <-. congruence.
      * specialize (Hneed s' Hin). rewrite lookup_file_removed in Hneed.
        now destruct (String.eqb s' s).
    + exact Hinv.
Qed.

(** X17.  When [concat_vcf] returns, it was given no file twice, every file it
    was given is gone, and, the list not being empty, the tool was started
    exactly once, on the names in the order given. *)
Theorem concat_vcf_removes_its_inputs
    (t : tools) (default_output : string) (vcfs : list value) (output : option value)
    (w w' : world) (v : value) :
  concat_vcf t default_output vcfs output w = (Ok v, w') ->
  NoDup vcfs /\
  (forall s, In (VStr s) vcfs -> lookup_file s (files w') = None) /\
  (vcfs <> [] ->
   exists words,
     vcfs = map VStr words /\
     invocations w'
     = invocations w
       ++ [bcftools_argv words
             (match output with Some o => o | None => VStr default_output end)]).
Proof.
  unfold concat_vcf. destruct vcfs as [|x rest].
  - intros H. apply pair_equal_spec in H. destruct H as (_ & <-).
    repeat split; [constructor | intros s [] | congruence].
  - intros H.
    apply bind_Ok in H. destruct H as (words & w1 & Hj & H).
    unfold lift in Hj. apply pair_equal_spec in Hj. destruct Hj as (Hj & <-).
    apply bind_Ok in H. destruct H as ([] & w2 & Ht & H).
    apply bind_Ok in H. destruct H as ([] & w3 & Hr & H).
    unfold ret in H. apply pair_equal_spec in H. destruct H as (_ & <-).
    apply remove_all_spec in Hr. destruct Hr as (Hnd & Hgone & _ & _ & Hinv).
    unfold subprocess_check_output, started in Ht.
    cbn [next_tmp files invocations] in Ht.
    destruct (tool_exit_ok t _ _); [|discriminate].
    apply pair_equal_spec in Ht. destruct Ht as (_ & <-).
    cbn [invocations] in Hinv.
    repeat split; try assumption.
    intros _. exists words. split; [now apply join_words_inv | exact Hinv].
Qed.

Lemma concat_vcf_removes_its_inputs_witness :
  NoDup [VStr "a.vcf"; VStr "b.vcf"] /\
  (forall s, In (VStr s) [VStr "a.vcf"; VStr "b.vcf"] ->
             lookup_file s (files (mkWorld 1 [("keep.txt", EmptyFile)]
                                     [bcftools_argv ["a.vcf"; "b.vcf"] (VStr "out.vcf")]))
             = None) /\
  ([VStr "a.vcf"; VStr "b.vcf"] <> [] ->
   exists words,
     [VStr "a.vcf"; VStr "b.vcf"] = map VStr words /\
     invocations (mkWorld 1 [("keep.txt", EmptyFile)]
                    [bcftools_argv ["a.vcf"; "b.vcf"] (VStr "out.vcf")])
     = [] ++ [bcftools_argv words (VStr "out.vcf")]).
Proof.
  apply (concat_vcf_removes_its_inputs (quiet_tools 0) "/tmp/tmp.vcf"
           [VStr "a.vcf"; VStr "b.vcf"] (Some (VStr "out.vcf"))
           (mkWorld 1 [("a.vcf", EmptyFile); ("keep.txt", EmptyFile); ("b.vcf", EmptyFile)] [])
           _ (VStr "out.vcf")).
  reflexivity.
Defined.

(** ** The whole run *)

Lemma main_never_returns_on_a_chromosome_witness :
  ~ returns (main (quiet_tools (30 # 1)) bam_apart "out.vcf") (mkWorld 0 [] []).
Proof.
  apply main_never_returns_on_a_chromosome. discriminate.
Defined.

Lemma foldM_returned {A S} (I : S -> Prop) (body : A -> S -> M S)
    (l : list A) (acc acc' : S) (w w' : world) :
  (forall x a w1 a' w2, I a -> body x a w1 = (Ok a', w2) -> I a') ->
  I acc -> foldM body l acc w = (Ok acc', w') -> I acc'.
Proof.
  intros Hinv. revert acc w. induction l as [|x rest IH]; simpl; intros acc w Hacc H.
  - unfold ret in H. injection H as <- _. exact Hacc.
  - apply bind_Ok in H. destruct H as (a & w1 & Hb & H).
    apply (IH a w1); [|exact H]. now apply (Hinv x acc w a w1).
Qed.

(** With the program's own [sniffles] nothing is ever filed: a read-set that
    passes the gate stops the run. *)
Lemma call_read_set_files_nothing (t : tools) (tmpdmos chrom : string)
    (block : PhaseBlock) (item : string * value)
    (variant_files variant_files' : defaultdict value) (w w' : world) :
  call_read_set (sniffles t) t tmpdmos chrom block item variant_files w
  = (Ok variant_files', w') ->
  variant_files' = variant_files.
Proof.
  unfold call_read_set. intros H.
  apply bind_Ok in H. destruct H as (cov & w1 & _ & H).
  apply bind_Ok in H. destruct H as (vf & w2 & Hif & H).
  apply bind_Ok in H. destruct H as ([] & w3 & _ & H).
  unfold ret in H. injection H as <- _.
  destruct (enough_coverage cov).
  - apply bind_Ok in Hif. destruct Hif as (? & ? & Hs & _). discriminate.
  - unfold ret in Hif. now injection Hif as <- _.
Qed.

Lemma call_block_files_nothing (t : tools) (bam : AlignmentFile) (tmpdmos chrom : string)
    (block : PhaseBlock) (variant_files variant_files' : defaultdict value)
    (w w' : world) :
  call_block (sniffles t) t bam tmpdmos chrom block variant_files w
  = (Ok variant_files', w') ->
  variant_files' = variant_files.
Proof.
  unfold call_block. intros H.
  apply bind_Ok in H. destruct H as (tmpbams & w1 & _ & H).
  apply (foldM_returned (fun vf => vf = variant_files) _ _ _ _ _ _) in H;
    [assumption | | reflexivity].
  intros x a w2 a' w3 -> Hx. now apply call_read_set_files_nothing in Hx.
Qed.

Lemma get_coverage_only_mosdepth (t : tools) (tmpdir tmpbam chrom : string)
    (block : PhaseBlock) :
  keeps only_mosdepth (get_coverage t tmpdir tmpbam chrom block).
Proof.
  intros w. rewrite get_coverage_run. cbv zeta.
  exists [mosdepth_argv (tmp_bed w) tmpdir tmpbam chrom block]. split.
  - destruct (np_loadtxt t _ _); [destruct (lookup_file _ _)|]; reflexivity.
  - constructor; [|constructor]. unfold mosdepth_argv. eexists. reflexivity.
Qed.

Lemma make_bams_quiet (bam : AlignmentFile) (chrom : string) (block : PhaseBlock) :
  keeps quiet (make_bams bam chrom block).
Proof.
  unfold make_bams. apply (keeps_foldM quiet quiet_refl quiet_trans).
  intros L acc. unfold make_bam.
  apply (keeps_bind quiet quiet_trans); [apply mkstemp_quiet | intros tmppath].
  apply (keeps_bind quiet quiet_trans); [apply write_file_quiet | intros _].
  apply (keeps_bind quiet quiet_trans);
    [apply (keeps_lift quiet quiet_refl) | intros fetched].
  apply (keeps_bind quiet quiet_trans);
    [apply write_file_quiet | intros _; apply (keeps_ret quiet quiet_refl)].
Qed.

Lemma concat_vcf_empty_quiet (t : tools) (d : string) (output : option value) :
  keeps quiet (concat_vcf t d [] output).
Proof. intros w. reflexivity. Qed.

Ltac mosdepth_step :=
  first
    [ apply (keeps_weaken quiet only_mosdepth); [exact quiet_only_mosdepth|];
      first [ apply mkstemp_quiet | apply mkdtemp_quiet | apply write_file_quiet
            | apply os_remove_quiet | apply make_bams_quiet
            | apply concat_vcf_empty_quiet
            | apply (keeps_ret quiet quiet_refl)
            | apply (keeps_raise quiet quiet_refl)
            | apply (keeps_lift quiet quiet_refl) ]
    | apply get_coverage_only_mosdepth ].

Lemma call_read_set_only_mosdepth (t : tools) (tmpdmos chrom : string)
    (block : PhaseBlock) (item : string * value) (variant_files : defaultdict value) :
  keeps only_mosdepth
    (call_read_set (sniffles t) t tmpdmos chrom block item variant_files).
Proof.
  unfold call_read_set.
  apply (keeps_bind only_mosdepth only_mosdepth_trans); [mosdepth_step|]. intros cov.
  apply (keeps_bind only_mosdepth only_mosdepth_trans).
  - destruct (enough_coverage cov); [|mosdepth_step].
    apply (keeps_bind only_mosdepth only_mosdepth_trans); [|intros; mosdepth_step].
    simpl. mosdepth_step.
  - intros vf. apply (keeps_bind only_mosdepth only_mosdepth_trans);
      [mosdepth_step | intros; mosdepth_step].
Qed.

Lemma call_block_only_mosdepth (t : tools) (bam : AlignmentFile) (tmpdmos chrom : string)
    (block : PhaseBlock) (variant_files : defaultdict value) :
  keeps only_mosdepth (call_block (sniffles t) t bam tmpdmos chrom block variant_files).
Proof.
  unfold call_block.
  apply (keeps_bind only_mosdepth only_mosdepth_trans); [mosdepth_step|].
  intros tmpbams.
  apply (keeps_foldM only_mosdepth only_mosdepth_refl only_mosdepth_trans).
  intros x a. apply call_read_set_only_mosdepth.
Qed.

Lemma call_chromosome_only_mosdepth (t : tools) (d : string) (bam : AlignmentFile)
    (tmpdmos chrom : string) (acc : list value) :
  keeps only_mosdepth
    (call_chromosome (sniffles t) merge_haplotypes t d bam tmpdmos chrom acc).
Proof.
  unfold call_chromosome.
  apply (keeps_bind only_mosdepth only_mosdepth_trans); [mosdepth_step|].
  intros phase_blocks.
  apply (keeps_bind only_mosdepth only_mosdepth_trans); [mosdepth_step|]. intros len.
  apply (keeps_bind only_mosdepth only_mosdepth_trans); [mosdepth_step|].
  intros unphased.
  apply (keeps_bind_returned only_mosdepth only_mosdepth_trans).
  - apply (keeps_foldM only_mosdepth only_mosdepth_refl only_mosdepth_trans).
    intros x a. apply call_block_only_mosdepth.
  - intros vf w w1 Hvf.
    apply (foldM_returned (fun vf => vf = [])) in Hvf; [| |reflexivity].
    + subst vf. cbn [dd_get].
      revert w1. change (keeps only_mosdepth
        (h1_vcf <- concat_vcf t d [] None ;;
         h2_vcf <- concat_vcf t d [] None ;;
         unph_vcf <- concat_vcf t d [] None ;;
         chrom_vcf <- merge_haplotypes [h1_vcf; h2_vcf; unph_vcf] ;;
         ret (acc ++ [chrom_vcf]))%M).
      do 3 (apply (keeps_bind only_mosdepth only_mosdepth_trans);
            [mosdepth_step | intros ?]).
      apply (keeps_bind only_mosdepth only_mosdepth_trans);
        [simpl; mosdepth_step | intros; mosdepth_step].
    + intros x a w2 a' w3 -> Hx. now apply call_block_files_nothing in Hx.
Qed.

Lemma foldM_never_returns {A S} (body : A -> S -> M S) (l : list A) (acc acc' : S)
    (w w' : world) :
  (forall x a w1, ~ returns (body x a) w1) ->
  foldM body l acc w = (Ok acc', w') -> l = [].
Proof.
  intros Hnever H. destruct l as [|x rest]; [reflexivity|]. exfalso.
  apply (Hnever x acc w). apply foldM_cons_returns with (rest := rest).
  now exists acc', w'.
Qed.

(** X19.  Whatever the alignment file and whatever the tools do, the only
    program a run of [main] ever starts is mosdepth: the variant caller and
    the concatenation tool are never started, whether the run returns or
    raises. *)
Theorem main_only_starts_mosdepth
    (t : tools) (bam : AlignmentFile) (args_vcf : string) (w : world) :
  exists started_since,
    invocations (snd (main t bam args_vcf w)) = invocations w ++ started_since /\
    Forall (fun argv => exists rest, argv = "mosdepth" :: rest) started_since.
Proof.
  change (only_mosdepth w (snd (main t bam args_vcf w))). revert w.
  change (keeps only_mosdepth (main t bam args_vcf)). unfold main.
  apply (keeps_bind only_mosdepth only_mosdepth_trans);
    [unfold define_concat_vcf; mosdepth_step|].
  intros d. unfold main_with.
  apply (keeps_bind only_mosdepth only_mosdepth_trans); [mosdepth_step|].
  intros opened.
  apply (keeps_bind only_mosdepth only_mosdepth_trans); [mosdepth_step|].
  intros tmpdmos.
  apply (keeps_bind only_mosdepth only_mosdepth_trans); [mosdepth_step|].
  intros tmpdvcf.
  apply (keeps_bind_returned only_mosdepth only_mosdepth_trans).
  - apply (keeps_foldM only_mosdepth only_mosdepth_refl only_mosdepth_trans).
    intros x a. apply call_chromosome_only_mosdepth.
  - intros vcfs w0 w1 Hv.
    assert (Hrefs : map fst (references opened) = []).
    { apply (foldM_never_returns _ _ _ _ _ _ (fun x a w1 =>
               call_chromosome_never_returns t d opened tmpdmos x a w1) Hv). }
    rewrite Hrefs in Hv. simpl in Hv. unfold ret in Hv.
    apply pair_equal_spec in Hv. destruct Hv as (Hv & _). injection Hv as <-.
    revert w1. change (keeps only_mosdepth
      (concat_vcf t d [] (Some (VStr args_vcf)) ;;;
       rmtree tmpdmos ;;; rmtree tmpdvcf)%M).
    apply (keeps_bind only_mosdepth only_mosdepth_trans); [mosdepth_step | intros _].
    apply (keeps_bind only_mosdepth only_mosdepth_trans);
      [unfold rmtree; mosdepth_step | intros _; unfold rmtree; mosdepth_step].
Qed.

(** X18.  An alignment file whose header names no reference sequence is
    refused when [main] opens it: the run raises [ValueError] before any
    scratch directory is made, and no program is started. *)
Theorem main_without_chromosomes
    (t : tools) (bam : AlignmentFile) (args_vcf : string) (w : world) :
  references bam = [] ->
  fst (main t bam args_vcf w) = Raise ValueError /\
  invocations (snd (main t bam args_vcf w)) = invocations w /\
  files (snd (main t bam args_vcf w))
  = ((default_prefix ++ fresh (next_tmp w) ++ ".vcf")%string, EmptyFile) :: files w.
Proof.
  intros Hrefs.
  assert (Hrun :
    main t bam args_vcf w
    = (Raise ValueError,
       mkWorld (S (next_tmp w))
         (((default_prefix ++ fresh (next_tmp w) ++ ".vcf")%string, EmptyFile)
          :: files w)
         (invocations w))).
  { unfold main, main_with, open_AlignmentFile. rewrite Hrefs. reflexivity. }
  rewrite Hrun. split; [reflexivity | split; reflexivity].
Qed.

Lemma main_without_chromosomes_witness :
  fst (main (quiet_tools 0) (mkBam [] []) "out.vcf" (mkWorld 0 [] []))
  = Raise ValueError /\
  invocations (snd (main (quiet_tools 0) (mkBam [] []) "out.vcf" (mkWorld 0 [] []))) = [] /\
  files (snd (main (quiet_tools 0) (mkBam [] []) "out.vcf" (mkWorld 0 [] [])))
  = ((default_prefix ++ fresh 0 ++ ".vcf")%string, EmptyFile) :: [].
Proof.
  apply (main_without_chromosomes (quiet_tools 0) (mkBam [] []) "out.vcf" (mkWorld 0 [] [])).
  reflexivity.
Defined.
